(** * Extraction-and-synthesis pipeline of ProcessingHelper (electron/ProcessingHelper.ts)

    Shallow embedding of the parts of [ProcessingHelper] that the
    specification talks about:
    - JavaScript strings as lists of UTF-16 code units, with the
      [String.prototype] operations the helper uses (trim, includes,
      split, replace, match);
    - the regular expressions of the helper, run by a backtracking matcher
      that follows the ECMAScript matching semantics (first successful
      alternative in priority order, greedy and lazy quantifiers, the
      empty-iteration check, lookahead, capture groups);
    - [JSON.parse] as a lexer and a recursive-descent parser, and the
      dynamic JavaScript values the helper manipulates;
    - the MCQ normalisation code ([validateAndFixMCQFormat],
      [extractQuestionsFromText], [extractOptionsFromText],
      [parseMCQResponse]) and the complexity extraction of
      [generateSolutionsHelper];
    - the request lifecycle of [processScreenshots] and
      [cancelOngoingRequests] as a state machine driven by the environment
      (user commands, network responses). *)

From Stdlib Require Import NArith ZArith Arith Lia Bool Ascii String List.
Set Warnings "-register-all".
Import ListNotations.
Open Scope list_scope.

(* ================================================================= *)
(** ** JavaScript strings *)

(** A JavaScript string is a sequence of UTF-16 code units. *)
Definition jstr := list N.

(** Literal conversion, used for the string constants of the source. *)
Definition u (s : string) : jstr :=
  map (fun a => N_of_ascii a) (list_ascii_of_string s).

Definition cu (a : ascii) : N := N_of_ascii a.

Fixpoint jeqb (a b : jstr) : bool :=
  match a, b with
  | [], [] => true
  | x :: a', y :: b' => N.eqb x y && jeqb a' b'
  | _, _ => false
  end.

(** [WhiteSpace] and [LineTerminator] code units (ECMA-262 12.2, 12.3):
    what [\s] matches and what [trim] removes. *)
Definition js_space (c : N) : bool :=
  existsb (N.eqb c)
    [9; 10; 11; 12; 13; 32; 160; 5760; 8192; 8193; 8194; 8195; 8196;
     8197; 8198; 8199; 8200; 8201; 8202; 8232; 8233; 8239; 8287; 12288;
     65279]%N.

Definition is_digit (c : N) : bool := (48 <=? c)%N && (c <=? 57)%N.
Definition is_upper (c : N) : bool := (65 <=? c)%N && (c <=? 90)%N.
Definition is_lower (c : N) : bool := (97 <=? c)%N && (c <=? 122)%N.

(** [toUpperCase] / [toLowerCase] on the ASCII letters; every use below
    applies them to code units already known to be ASCII letters or
    digits, or only asks whether the result is one of [a]..[d]
    (no non-ASCII code unit lower-cases to an ASCII letter). *)
Definition up_unit (c : N) : N := if is_lower c then (c - 32)%N else c.
Definition low_unit (c : N) : N := if is_upper c then (c + 32)%N else c.

Fixpoint trim_start (s : jstr) : jstr :=
  match s with
  | c :: s' => if js_space c then trim_start s' else s
  | [] => []
  end.

Definition trim_end (s : jstr) : jstr := rev (trim_start (rev s)).

(** [String.prototype.trim]. *)
Definition trim (s : jstr) : jstr := trim_end (trim_start s).

Fixpoint is_prefix (p s : jstr) : bool :=
  match p, s with
  | [], _ => true
  | x :: p', y :: s' => N.eqb x y && is_prefix p' s'
  | _ :: _, [] => false
  end.

(** [String.prototype.includes]. *)
Fixpoint includes (s p : jstr) : bool :=
  is_prefix p s ||
  match s with
  | [] => false
  | _ :: s' => includes s' p
  end.

(** [String.prototype.replace] with a string pattern: the first
    occurrence is replaced. *)
Fixpoint replace_first (s p r : jstr) : jstr :=
  if is_prefix p s then r ++ skipn (length p) s
  else match s with
       | [] => []
       | c :: s' => c :: replace_first s' p r
       end.

(** [String.prototype.split] with a one-code-unit string separator. *)
Fixpoint split_unit (sep : N) (s : jstr) : list jstr :=
  match s with
  | [] => [[]]
  | c :: s' =>
      if N.eqb c sep then [] :: split_unit sep s'
      else match split_unit sep s' with
           | w :: ws => (c :: w) :: ws
           | [] => [[c]]
           end
  end.

Definition sublist (a b : nat) (s : jstr) : jstr := firstn (b - a) (skipn a s).

(* ================================================================= *)
(** ** Regular expressions *)

(** Abstract syntax of the patterns of the source.  A character class is
    a predicate on code units; the [i] flag is applied when the pattern is
    transcribed (the predicates below already fold case). *)
Inductive re :=
| REps
| RChar (p : N -> bool)
| RSeq (r1 r2 : re)
| RAlt (r1 r2 : re)
| RStar (greedy : bool) (r : re)
| RGroup (n : nat) (r : re)
| RLook (positive : bool) (r : re)
| RBol
| REol.

Record mstate := MS { ms_pos : nat; ms_caps : list (nat * (nat * nat)) }.

Fixpoint groups (r : re) : list nat :=
  match r with
  | RSeq r1 r2 | RAlt r1 r2 => groups r1 ++ groups r2
  | RStar _ r1 | RLook _ r1 => groups r1
  | RGroup n r1 => n :: groups r1
  | _ => []
  end.

Definition clear_caps (gs : list nat) (st : mstate) : mstate :=
  MS (ms_pos st)
     (filter (fun e => negb (existsb (Nat.eqb (fst e)) gs)) (ms_caps st)).

(** Iterations of a quantifier [r*] (greedy) or [r*?] (lazy).  An
    iteration that ends where it started fails (RepeatMatcher, step 2.b
    of ECMA-262 22.2.2.3.1), and the captures of [r] are reset before each
    iteration.  The fuel is [1 + length - position], which the strict
    progress of every iteration never exhausts. *)
Fixpoint star_loop (f : mstate -> (mstate -> option mstate) -> option mstate)
    (gs : list nat) (greedy : bool) (fuel : nat) (st : mstate)
    (k : mstate -> option mstate) : option mstate :=
  match fuel with
  | O => None
  | S fuel' =>
      if greedy then
        match f (clear_caps gs st)
                (fun st1 => if ms_pos st <? ms_pos st1
                            then star_loop f gs greedy fuel' st1 k else None) with
        | Some x => Some x
        | None => k st
        end
      else
        match k st with
        | Some x => Some x
        | None =>
            f (clear_caps gs st)
              (fun st1 => if ms_pos st <? ms_pos st1
                          then star_loop f gs greedy fuel' st1 k else None)
        end
  end.

(** Backtracking matcher in continuation-passing style: [mt inp r st k]
    tries the ways of matching [r] at [st] in priority order and returns
    the first result of the continuation [k] that succeeds. *)
Fixpoint mt (inp : jstr) (r : re) (st : mstate)
    (k : mstate -> option mstate) {struct r} : option mstate :=
  match r with
  | REps => k st
  | RChar p =>
      match nth_error inp (ms_pos st) with
      | Some c => if p c then k (MS (S (ms_pos st)) (ms_caps st)) else None
      | None => None
      end
  | RSeq r1 r2 => mt inp r1 st (fun st1 => mt inp r2 st1 k)
  | RAlt r1 r2 =>
      match mt inp r1 st k with
      | Some x => Some x
      | None => mt inp r2 st k
      end
  | RStar g r1 =>
      star_loop (fun st1 k1 => mt inp r1 st1 k1) (groups r1) g
                (S (length inp - ms_pos st)) st k
  | RGroup n r1 =>
      mt inp r1 st (fun st1 =>
        k (MS (ms_pos st1) ((n, (ms_pos st, ms_pos st1)) :: ms_caps st1)))
  | RLook true r1 =>
      match mt inp r1 st Some with
      | Some st1 => k (MS (ms_pos st) (ms_caps st1))
      | None => None
      end
  | RLook false r1 =>
      match mt inp r1 st Some with
      | Some _ => None
      | None => k st
      end
  | RBol => if Nat.eqb (ms_pos st) 0 then k st else None
  | REol => if Nat.eqb (ms_pos st) (length inp) then k st else None
  end.

(** A successful match: start index and final state. *)
Record rmatch := RM { rm_start : nat; rm_state : mstate }.

Fixpoint search (inp : jstr) (r : re) (i fuel : nat) : option rmatch :=
  match fuel with
  | O => None
  | S f =>
      match mt inp r (MS i []) Some with
      | Some st => Some (RM i st)
      | None => search inp r (S i) f
      end
  end.

(** [RegExp.prototype.exec] from [lastIndex = i]: the first start
    position [i <= p <= length] at which the pattern matches. *)
Definition exec_from (r : re) (inp : jstr) (i : nat) : option rmatch :=
  search inp r i (S (length inp - i)).

(** [String.prototype.match] / [RegExp.prototype.test] for a pattern
    without the [g] flag. *)
Definition rmatch_ (r : re) (inp : jstr) : option rmatch := exec_from r inp 0.
Definition rtest (r : re) (inp : jstr) : bool :=
  match rmatch_ r inp with Some _ => true | None => false end.

Definition m_end (m : rmatch) : nat := ms_pos (rm_state m).

Definition whole (inp : jstr) (m : rmatch) : jstr :=
  sublist (rm_start m) (m_end m) inp.

(** Capture group [n] of a match; [None] is [undefined]. *)
Definition cap (inp : jstr) (m : rmatch) (n : nat) : option jstr :=
  match find (fun e => Nat.eqb (fst e) n) (ms_caps (rm_state m)) with
  | Some (_, (a, b)) => Some (sublist a b inp)
  | None => None
  end.

(** [exec] in a [while] loop on a pattern with the [g] flag: every match
    is returned, [lastIndex] moving to the end of the previous match.
    (The loops of the source use patterns whose matches are never
    empty.) *)
Fixpoint exec_all_fuel (r : re) (inp : jstr) (i fuel : nat) : list rmatch :=
  match fuel with
  | O => []
  | S f =>
      match exec_from r inp i with
      | Some m => m :: exec_all_fuel r inp (m_end m) f
      | None => []
      end
  end.

Definition exec_all (r : re) (inp : jstr) : list rmatch :=
  exec_all_fuel r inp 0 (S (length inp)).

(** Match anchored at [q] (the SplitMatcher of [String.prototype.split]). *)
Definition match_at (r : re) (inp : jstr) (q : nat) : option nat :=
  match mt inp r (MS q []) Some with
  | Some st => Some (ms_pos st)
  | None => None
  end.

(** [String.prototype.split] with a pattern without capture groups
    (ECMA-262 22.2.6.14). *)
Fixpoint split_loop (r : re) (inp : jstr) (p q fuel : nat) : list jstr :=
  match fuel with
  | O => [sublist p (length inp) inp]
  | S f =>
      if q <? length inp then
        match match_at r inp q with
        | Some e =>
            if Nat.eqb e p then split_loop r inp p (S q) f
            else sublist p q inp :: split_loop r inp e e f
        | None => split_loop r inp p (S q) f
        end
      else [sublist p (length inp) inp]
  end.

Definition rsplit (r : re) (inp : jstr) : list jstr :=
  match inp with
  | [] => match match_at r inp 0 with Some _ => [] | None => [[]] end
  | _ => split_loop r inp 0 0 (S (length inp))
  end.

(** Pattern building blocks. *)
Definition ch (c : N) : re := RChar (N.eqb c).
Definition chi (c : N) : re := RChar (fun x => N.eqb (low_unit x) (low_unit c)).
Fixpoint lit (w : jstr) : re :=
  match w with [] => REps | c :: w' => RSeq (ch c) (lit w') end.
Fixpoint liti (w : jstr) : re :=
  match w with [] => REps | c :: w' => RSeq (chi c) (liti w') end.
Definition star (r : re) : re := RStar true r.
Definition lstar (r : re) : re := RStar false r.
Definition plus (r : re) : re := RSeq r (RStar true r).
Definition opt (r : re) : re := RAlt r REps.
Definition c_space : N -> bool := js_space.
Definition c_digit : N -> bool := is_digit.
Definition c_notnl : N -> bool := fun c => negb (N.eqb c 10).
Definition c_any : N -> bool := fun _ => true.
Definition c_in (l : list N) : N -> bool := fun c => existsb (N.eqb c) l.
Definition c_range (a b : N) : N -> bool := fun c => (a <=? c)%N && (c <=? b)%N.
Notation "r1 ;; r2" := (RSeq r1 r2) (at level 41, right associativity).

(* ================================================================= *)
(** ** JavaScript values *)

(** The values reachable from [JSON.parse] and from the helper's own
    object literals.  A number keeps its JSON lexeme (two equal lexemes
    are the same double).  An array carries, besides its elements, the
    named properties assigned to it.  Objects list their own properties
    in the enumeration order of [Object.keys] (ECMA-262
    OrdinaryOwnPropertyKeys: array-index keys ascending, then the other
    keys in insertion order). *)
Inductive jv :=
| JUndef
| JNull
| JBool (b : bool)
| JNum (lexeme : jstr)
| JStr (s : jstr)
| JArr (elems : list jv) (props : list (jstr * jv))
| JObj (props : list (jstr * jv)).

Definition obj := list (jstr * jv).

Definition digits_value (s : jstr) : N :=
  fold_left (fun acc c => (acc * 10 + (c - 48))%N) s 0%N.

(** Canonical array index: ["0"] or a digit string without leading zero
    whose value is below [2^32 - 1]. *)
Definition is_array_index (k : jstr) : bool :=
  match k with
  | [] => false
  | [c] => is_digit c
  | c :: _ =>
      negb (N.eqb c 48) && forallb is_digit k
      && (N.ltb (digits_value k) 4294967295%N)
  end.

Fixpoint obj_get (o : obj) (k : jstr) : option jv :=
  match o with
  | [] => None
  | (k', v) :: o' => if jeqb k k' then Some v else obj_get o' k
  end.

Fixpoint obj_has (o : obj) (k : jstr) : bool :=
  match o with
  | [] => false
  | (k', _) :: o' => jeqb k k' || obj_has o' k
  end.

Fixpoint obj_update (o : obj) (k : jstr) (v : jv) : obj :=
  match o with
  | [] => []
  | (k', v') :: o' =>
      if jeqb k k' then (k', v) :: o' else (k', v') :: obj_update o' k v
  end.

(** A new array-index key goes before the first non-index key and before
    the first index key of larger value. *)
Fixpoint obj_insert_index (o : obj) (k : jstr) (v : jv) : obj :=
  match o with
  | [] => [(k, v)]
  | (k', v') :: o' =>
      if is_array_index k' && N.ltb (digits_value k') (digits_value k)
      then (k', v') :: obj_insert_index o' k v
      else (k, v) :: o
  end.

(** [o[k] = v] on an ordinary object ([CreateDataProperty] /
    [OrdinarySet]): an existing key keeps its place. *)
Definition obj_set (o : obj) (k : jstr) (v : jv) : obj :=
  if obj_has o k then obj_update o k v
  else if is_array_index k then obj_insert_index o k v
  else o ++ [(k, v)].

(** ToBoolean.  A number is falsy when its lexeme denotes [+0], [-0]
    after rounding to a double, i.e. when its magnitude is at most
    [2^-1075]. *)
Fixpoint split_mantissa (l : jstr) (seen_dot : bool) (ds : jstr) (fd : nat)
  : jstr * nat * jstr :=
  match l with
  | [] => (rev ds, fd, [])
  | c :: l' =>
      if N.eqb c 46 then split_mantissa l' true ds fd
      else if N.eqb c 101 || N.eqb c 69 then (rev ds, fd, l')
      else if N.eqb c 45 then split_mantissa l' seen_dot ds fd
      else split_mantissa l' seen_dot (c :: ds) (if seen_dot then S fd else fd)
  end.

Definition exp_value (e : jstr) : Z :=
  match e with
  | c :: e' =>
      if N.eqb c 45 then (- Z.of_N (digits_value e'))%Z
      else if N.eqb c 43 then Z.of_N (digits_value e')
      else Z.of_N (digits_value e)
  | [] => 0%Z
  end.

(** The lexeme denotes [m * 10^e10]; it rounds to zero iff
    [m * 10^e10 <= 2^-1075], i.e. [m * 2^1075 <= 10^(-e10)].  Since
    [m < 10^(digits m)] and [2^1075 < 10^324], a negative exponent of at
    least [digits + 324] always rounds to zero. *)
Definition num_is_zero (l : jstr) : bool :=
  let '(ds, fd, e) := split_mantissa l false [] 0 in
  let m := digits_value ds in
  if N.eqb m 0 then true
  else
    let e10 := (exp_value e - Z.of_nat fd)%Z in
    if (0 <=? e10)%Z then false
    else if (Z.of_nat (length ds) + 324 <=? - e10)%Z then true
    else (Z.of_N m * 2 ^ 1075 <=? 10 ^ (- e10))%Z.

Definition truthy (v : jv) : bool :=
  match v with
  | JUndef | JNull => false
  | JBool b => b
  | JNum l => negb (num_is_zero l)
  | JStr s => negb (match s with [] => true | _ => false end)
  | JArr _ _ | JObj _ => true
  end.

(** Outcome of JavaScript code: a value or a thrown exception.
    [Unmodelled] marks the one construct the model leaves open (a pattern
    compiled at run time from text with regular-expression syntax). *)
Inductive res (A : Type) :=
| Ok (a : A)
| Throw
| Unmodelled.
Arguments Ok {A} a.
Arguments Throw {A}.
Arguments Unmodelled {A}.

Definition bind {A B} (m : res A) (f : A -> res B) : res B :=
  match m with
  | Ok a => f a
  | Throw => Throw
  | Unmodelled => Unmodelled
  end.
Notation "x <- m ; k" := (bind m (fun x => k))
  (at level 61, m at next level, right associativity).

Fixpoint nat_digits (fuel n : nat) (acc : jstr) : jstr :=
  match fuel with
  | O => acc
  | S f =>
      let acc' := (N.of_nat (n mod 10) + 48)%N :: acc in
      if n <? 10 then acc' else nat_digits f (n / 10) acc'
  end.

(** [String(n)] for a non-negative integer [n]. *)
Definition nat_to_jstr (n : nat) : jstr := nat_digits (S n) n [].

(** Property read [v.k] for a non-index, non-[length] key [k] (the only
    keys the helper reads): own properties of objects and arrays;
    primitives have no such property; [null] and [undefined] throw a
    TypeError. *)
Definition get_field (v : jv) (k : jstr) : res jv :=
  match v with
  | JUndef | JNull => Throw
  | JObj o | JArr _ o =>
      match obj_get o k with Some x => Ok x | None => Ok JUndef end
  | _ => Ok JUndef
  end.

(** Property write [v.k = x] in strict mode (class bodies are strict):
    on a primitive it throws a TypeError. *)
Definition set_field (v : jv) (k : jstr) (x : jv) : res jv :=
  match v with
  | JObj o => Ok (JObj (obj_set o k x))
  | JArr xs o => Ok (JArr xs (obj_set o k x))
  | _ => Throw
  end.

Fixpoint index_entries (i : nat) (xs : list jv) : obj :=
  match xs with
  | [] => []
  | x :: xs' => (nat_to_jstr i, x) :: index_entries (S i) xs'
  end.

(** [Object.entries(v)]; [Object.keys(v).length] is its length. *)
Definition entries (v : jv) : res obj :=
  match v with
  | JUndef | JNull => Throw
  | JObj o => Ok o
  | JArr xs o => Ok (index_entries 0 xs ++ o)
  | JStr s => Ok (index_entries 0 (map (fun c => JStr [c]) s))
  | _ => Ok []
  end.

(* ================================================================= *)
(** ** JSON.parse *)

Inductive tok :=
| TLBrace | TRBrace | TLBrack | TRBrack | TComma | TColon
| TStr (s : jstr) | TNum (l : jstr) | TTrue | TFalse | TNull.

(** States of the number lexer (ECMA-404 number grammar). *)
Inductive numst :=
| NSign | NZero | NInt | NDot | NFrac | NExp | NExpSign | NExpDig.

Definition num_final (n : numst) : bool :=
  match n with NZero | NInt | NFrac | NExpDig => true | _ => false end.

Definition num_next (n : numst) (c : N) : option numst :=
  let d := is_digit c in
  let e := N.eqb c 101 || N.eqb c 69 in
  match n with
  | NSign => if N.eqb c 48 then Some NZero else if d then Some NInt else None
  | NZero => if N.eqb c 46 then Some NDot else if e then Some NExp else None
  | NInt => if d then Some NInt else if N.eqb c 46 then Some NDot
            else if e then Some NExp else None
  | NDot => if d then Some NFrac else None
  | NFrac => if d then Some NFrac else if e then Some NExp else None
  | NExp => if N.eqb c 43 || N.eqb c 45 then Some NExpSign
            else if d then Some NExpDig else None
  | NExpSign => if d then Some NExpDig else None
  | NExpDig => if d then Some NExpDig else None
  end.

Definition json_ws (c : N) : bool :=
  N.eqb c 32 || N.eqb c 9 || N.eqb c 10 || N.eqb c 13.

Definition hex_val (c : N) : option N :=
  if is_digit c then Some (c - 48)%N
  else if (97 <=? c)%N && (c <=? 102)%N then Some (c - 87)%N
  else if (65 <=? c)%N && (c <=? 70)%N then Some (c - 55)%N
  else None.

(** Lexer states: between tokens, inside a string (characters so far,
    reversed), after a backslash, inside a [\uXXXX] escape, inside a
    number, inside one of the words [true], [false], [null]. *)
Inductive lst :=
| LBetween
| LStr (acc : jstr)
| LEsc (acc : jstr)
| LHex (acc : jstr) (n : nat) (v : N)
| LNum (n : numst) (acc : jstr)
| LWord (rest : jstr) (t : tok).

Definition step_between (ts : list tok) (c : N) : option (lst * list tok) :=
  if json_ws c then Some (LBetween, ts)
  else if N.eqb c 123 then Some (LBetween, TLBrace :: ts)
  else if N.eqb c 125 then Some (LBetween, TRBrace :: ts)
  else if N.eqb c 91 then Some (LBetween, TLBrack :: ts)
  else if N.eqb c 93 then Some (LBetween, TRBrack :: ts)
  else if N.eqb c 44 then Some (LBetween, TComma :: ts)
  else if N.eqb c 58 then Some (LBetween, TColon :: ts)
  else if N.eqb c 34 then Some (LStr [], ts)
  else if N.eqb c 45 then Some (LNum NSign [c], ts)
  else if N.eqb c 48 then Some (LNum NZero [c], ts)
  else if is_digit c then Some (LNum NInt [c], ts)
  else if N.eqb c 116 then Some (LWord (u "rue") TTrue, ts)
  else if N.eqb c 102 then Some (LWord (u "alse") TFalse, ts)
  else if N.eqb c 110 then Some (LWord (u "ull") TNull, ts)
  else None.

Definition lex_step (st : lst) (ts : list tok) (c : N) : option (lst * list tok) :=
  match st with
  | LBetween => step_between ts c
  | LStr acc =>
      if N.eqb c 34 then Some (LBetween, TStr (rev acc) :: ts)
      else if N.eqb c 92 then Some (LEsc acc, ts)
      else if (c <? 32)%N then None
      else Some (LStr (c :: acc), ts)
  | LEsc acc =>
      if N.eqb c 34 || N.eqb c 92 || N.eqb c 47 then Some (LStr (c :: acc), ts)
      else if N.eqb c 98 then Some (LStr (8%N :: acc), ts)
      else if N.eqb c 102 then Some (LStr (12%N :: acc), ts)
      else if N.eqb c 110 then Some (LStr (10%N :: acc), ts)
      else if N.eqb c 114 then Some (LStr (13%N :: acc), ts)
      else if N.eqb c 116 then Some (LStr (9%N :: acc), ts)
      else if N.eqb c 117 then Some (LHex acc 0 0%N, ts)
      else None
  | LHex acc n v =>
      match hex_val c with
      | Some d =>
          if Nat.eqb n 3 then Some (LStr ((v * 16 + d)%N :: acc), ts)
          else Some (LHex acc (S n) (v * 16 + d)%N, ts)
      | None => None
      end
  | LNum n acc =>
      match num_next n c with
      | Some n' => Some (LNum n' (c :: acc), ts)
      | None =>
          if num_final n then step_between (TNum (rev acc) :: ts) c else None
      end
  | LWord rest t =>
      match rest with
      | [x] => if N.eqb c x then Some (LBetween, t :: ts) else None
      | x :: rest' => if N.eqb c x then Some (LWord rest' t, ts) else None
      | [] => None
      end
  end.

Definition lex_finish (st : lst) (ts : list tok) : option (list tok) :=
  match st with
  | LBetween => Some (rev ts)
  | LNum n acc => if num_final n then Some (rev (TNum (rev acc) :: ts)) else None
  | _ => None
  end.

Fixpoint lex_go (st : lst) (ts : list tok) (s : jstr) : option (list tok) :=
  match s with
  | [] => lex_finish st ts
  | c :: s' =>
      match lex_step st ts c with
      | Some (st', ts') => lex_go st' ts' s'
      | None => None
      end
  end.

Definition lex (s : jstr) : option (list tok) := lex_go LBetween [] s.

(** Recursive descent over the tokens.  Every two levels of fuel consume
    at least one token, so [2 * length + 2] is enough. *)
Fixpoint pval (fuel : nat) (ts : list tok) : option (jv * list tok) :=
  match fuel with
  | O => None
  | S f =>
      match ts with
      | TNull :: r => Some (JNull, r)
      | TTrue :: r => Some (JBool true, r)
      | TFalse :: r => Some (JBool false, r)
      | TStr s :: r => Some (JStr s, r)
      | TNum l :: r => Some (JNum l, r)
      | TLBrack :: TRBrack :: r => Some (JArr [] [], r)
      | TLBrack :: r => parr f r []
      | TLBrace :: TRBrace :: r => Some (JObj [], r)
      | TLBrace :: r => pobj f r []
      | _ => None
      end
  end
with parr (fuel : nat) (ts : list tok) (acc : list jv) : option (jv * list tok) :=
  match fuel with
  | O => None
  | S f =>
      match pval f ts with
      | Some (v, TComma :: r) => parr f r (v :: acc)
      | Some (v, TRBrack :: r) => Some (JArr (rev (v :: acc)) [], r)
      | _ => None
      end
  end
with pobj (fuel : nat) (ts : list tok) (acc : obj) : option (jv * list tok) :=
  match fuel with
  | O => None
  | S f =>
      match ts with
      | TStr k :: TColon :: r =>
          match pval f r with
          | Some (v, TComma :: r') => pobj f r' (obj_set acc k v)
          | Some (v, TRBrace :: r') => Some (JObj (obj_set acc k v), r')
          | _ => None
          end
      | _ => None
      end
  end.

(** [JSON.parse]: [None] is a thrown SyntaxError. *)
Definition json_parse (s : jstr) : option jv :=
  match lex s with
  | Some ts =>
      match pval (2 * length ts + 2) ts with
      | Some (v, []) => Some v
      | _ => None
      end
  | None => None
  end.

(* ================================================================= *)
(** ** The patterns of ProcessingHelper *)

Definition c_notrp : N -> bool := fun c => negb (N.eqb c 41).
Definition c_dotrp : N -> bool := c_in [46; 41]%N.
Definition c_letter : N -> bool := fun c => is_upper c || is_lower c.
Definition c_AD : N -> bool := c_range 65 68.
Definition c_ad : N -> bool := c_range 97 100.
Definition c_14 : N -> bool := c_range 49 52.
Definition c_ADad : N -> bool := fun c => c_AD c || c_ad c.
(** [.] : every code unit but the line terminators. *)
Definition c_dot : N -> bool := fun c => negb (c_in [10; 13; 8232; 8233]%N c).

(** [/\{[\s\S]*\}/] *)
Definition re_braces : re := ch 123 ;; star (RChar c_any) ;; ch 125.

(** [/```(?:json)?([\s\S]*?)```/] *)
Definition re_fence : re :=
  lit (u "```") ;; opt (lit (u "json")) ;; RGroup 1 (lstar (RChar c_any)) ;;
  lit (u "```").

(** [/Question\s+\d+:|Q\d+:/gi] *)
Definition re_qsplit : re :=
  RAlt (liti (u "Question") ;; plus (RChar c_space) ;; plus (RChar c_digit) ;; ch 58)
       (chi 81 ;; plus (RChar c_digit) ;; ch 58).

(** [/correct\s+answer\s*(?:is|:)\s*([A-D])/i] *)
Definition re_correct : re :=
  liti (u "correct") ;; plus (RChar c_space) ;; liti (u "answer") ;;
  star (RChar c_space) ;; RAlt (liti (u "is")) (ch 58) ;; star (RChar c_space) ;;
  RGroup 1 (RChar c_ADad).

(** [/explanation\s*(?::|is)([\s\S]*?)(?:Analysis|Key concepts|$)/i] *)
Definition re_explanation : re :=
  liti (u "explanation") ;; star (RChar c_space) ;; RAlt (ch 58) (liti (u "is")) ;;
  RGroup 1 (lstar (RChar c_any)) ;;
  RAlt (liti (u "Analysis")) (RAlt (liti (u "Key concepts")) REol).

(** [new RegExp(`${option}\\s*(?::|-)\\s*([^\\n]+)`, 'i')] for
    [option] in [A], [B], [C], [D]. *)
Definition re_analysis (option : N) : re :=
  chi option ;; star (RChar c_space) ;; RAlt (ch 58) (ch 45) ;;
  star (RChar c_space) ;; RGroup 1 (plus (RChar c_notnl)).

(** [/key\s+concepts\s*(?::|are|include)\s*([\s\S]*?)(?:\n\n|$)/i] *)
Definition re_key_concepts : re :=
  liti (u "key") ;; plus (RChar c_space) ;; liti (u "concepts") ;;
  star (RChar c_space) ;; RAlt (ch 58) (RAlt (liti (u "are")) (liti (u "include"))) ;;
  star (RChar c_space) ;; RGroup 1 (lstar (RChar c_any)) ;;
  RAlt (ch 10 ;; ch 10) REol.

(** [/[,\n]/] *)
Definition re_comma_nl : re := RChar (c_in [44; 10]%N).

(** [/(\d+)[\.\)][\s]*([^\n]+(?:(?!\d+[\.\)][\s]* )[^\n])* )/g]
    (spaces added before the closing parentheses) *)
Definition re_q_numbered : re :=
  RGroup 1 (plus (RChar c_digit)) ;; RChar c_dotrp ;; star (RChar c_space) ;;
  RGroup 2 (plus (RChar c_notnl) ;;
            star (RLook false (plus (RChar c_digit) ;; RChar c_dotrp ;;
                               star (RChar c_space)) ;; RChar c_notnl)).

(** [/([A-Za-z])[\.\)][\s]*([^\n]+(?:(?![A-Za-z][\.\)][\s]* )[^\n])* )/g]
    (spaces added before the closing parentheses) *)
Definition re_q_lettered : re :=
  RGroup 1 (RChar c_letter) ;; RChar c_dotrp ;; star (RChar c_space) ;;
  RGroup 2 (plus (RChar c_notnl) ;;
            star (RLook false (RChar c_letter ;; RChar c_dotrp ;;
                               star (RChar c_space)) ;; RChar c_notnl)).

(** [/\n\s*\n/] *)
Definition re_blocks : re := ch 10 ;; star (RChar c_space) ;; ch 10.

(** The four option patterns of [extractOptionsFromText]:
    [/([A-D])[\.\)]\s*([^\n]+)(?=\s*[A-D][\.\)]|$)/g],
    [/([a-d])[\.\)]\s*([^\n]+)(?=\s*[a-d][\.\)]|$)/g],
    [/\s*([1-4])[\.\)]\s*([^\n]+)(?=\s*[1-4][\.\)]|$)/g],
    [/(?:option|choice)\s*([A-Da-d])[:\.\)]\s*([^\n]+)/gi]. *)
Definition re_opt_class (cls : N -> bool) (lead : bool) : re :=
  (if lead then star (RChar c_space) else REps) ;;
  RGroup 1 (RChar cls) ;; RChar c_dotrp ;; star (RChar c_space) ;;
  RGroup 2 (plus (RChar c_notnl)) ;;
  RLook true (RAlt (star (RChar c_space) ;; RChar cls ;; RChar c_dotrp) REol).

Definition re_opt_word : re :=
  RAlt (liti (u "option")) (liti (u "choice")) ;; star (RChar c_space) ;;
  RGroup 1 (RChar c_ADad) ;; RChar (c_in [58; 46; 41]%N) ;; star (RChar c_space) ;;
  RGroup 2 (plus (RChar c_notnl)).

Definition option_patterns : list re :=
  [re_opt_class c_AD false; re_opt_class c_ad false; re_opt_class c_14 true;
   re_opt_word].

(** [/Time complexity:?\s*([^\n]+(?:\n[^\n]+)*?)(?=\n\s*(?:Space complexity|$))/i] *)
Definition re_time : re :=
  liti (u "Time complexity") ;; opt (ch 58) ;; star (RChar c_space) ;;
  RGroup 1 (plus (RChar c_notnl) ;; lstar (ch 10 ;; plus (RChar c_notnl))) ;;
  RLook true (ch 10 ;; star (RChar c_space) ;;
              RAlt (liti (u "Space complexity")) REol).

(** [/Space complexity:?\s*([^\n]+(?:\n[^\n]+)*?)(?=\n\s*(?:[A-Z]|$))/i]
    (under [i], [[A-Z]] matches every ASCII letter). *)
Definition re_space : re :=
  liti (u "Space complexity") ;; opt (ch 58) ;; star (RChar c_space) ;;
  RGroup 1 (plus (RChar c_notnl) ;; lstar (ch 10 ;; plus (RChar c_notnl))) ;;
  RLook true (ch 10 ;; star (RChar c_space) ;; RAlt (RChar c_letter) REol).

(** [/O\([^)]+\)/i] *)
Definition re_bigo : re := chi 79 ;; ch 40 ;; plus (RChar c_notrp) ;; ch 41.

(** Regular-expression syntax characters [^ $ \ . * + ? ( ) [ ] { } |]. *)
Definition syntax_char (c : N) : bool :=
  c_in [94; 36; 92; 46; 42; 43; 63; 40; 41; 91; 93; 123; 125; 124]%N c.

(** Pattern source text compiled with the [i] flag, for sources made of
    ordinary ASCII characters and [.]; any other syntax, and non-ASCII
    text (whose case folding [chi] does not model), is left open. *)
Fixpoint compile_plain (src : jstr) : res re :=
  match src with
  | [] => Ok REps
  | c :: src' =>
      r <- compile_plain src';
      if N.eqb c 46 then Ok (RChar c_dot ;; r)
      else if syntax_char c || (128 <=? c)%N then Unmodelled
      else Ok (chi c ;; r)
  end.

(** [new RegExp(`\\s*${letter}[.)]\\s*${text}`, 'i')] *)
Definition re_strip_option (letter : N) (text : jstr) : res re :=
  r <- compile_plain text;
  Ok (star (RChar c_space) ;; chi letter ;; RChar c_dotrp ;; star (RChar c_space) ;; r).

(** [String.prototype.replace(re, '')] for a pattern without [g]. *)
Definition replace_re (s : jstr) (r : re) : jstr :=
  match rmatch_ r s with
  | Some m => firstn (rm_start m) s ++ skipn (m_end m) s
  | None => s
  end.

(* ================================================================= *)
(** ** MCQ answers: parseMCQResponse *)

(** [v[i]] for a numeric index [i]. *)
Definition index_get (v : jv) (i : nat) : res jv :=
  match v with
  | JUndef | JNull => Throw
  | JArr xs _ => match nth_error xs i with Some x => Ok x | None => Ok JUndef end
  | JObj o => match obj_get o (nat_to_jstr i) with Some x => Ok x | None => Ok JUndef end
  | JStr s => match nth_error s i with Some c => Ok (JStr [c]) | None => Ok JUndef end
  | _ => Ok JUndef
  end.

Definition is_array (v : jv) : bool :=
  match v with JArr _ _ => true | _ => false end.

(** [x || d] *)
Definition or_else (x d : jv) : jv := if truthy x then x else d.

(** The [forEach] callback of [parseMCQResponse]: backfill the answer at
    [index] from [problemInfo.questions[index]]. *)
Definition backfill_answer (questions : jv) (index : nat) (answer : jv) : res jv :=
  q <- index_get questions index;
  if truthy q then
    qt <- get_field answer (u "question_text");
    answer1 <- (if truthy qt then Ok answer
                else qqt <- get_field q (u "question_text");
                     set_field answer (u "question_text") (or_else qqt (JStr [])));
    ao <- get_field answer1 (u "options");
    if truthy ao then Ok answer1
    else qo <- get_field q (u "options");
         if truthy qo then set_field answer1 (u "options") qo else Ok answer1
  else Ok answer.

Fixpoint backfill_from (questions : jv) (index : nat) (answers : list jv)
  : res (list jv) :=
  match answers with
  | [] => Ok []
  | a :: rest =>
      a' <- backfill_answer questions index a;
      rest' <- backfill_from questions (S index) rest;
      Ok (a' :: rest')
  end.

(** [parsed.answers.forEach(...)]: the answers array is updated in place
    inside [parsed]. *)
Definition backfill (parsed : jv) (questions : jv) : res jv :=
  match parsed with
  | JObj o =>
      match obj_get o (u "answers") with
      | Some (JArr xs ps) =>
          xs' <- backfill_from questions 0 xs;
          Ok (JObj (obj_update o (u "answers") (JArr xs' ps)))
      | _ => Ok parsed
      end
  | _ => Ok parsed
  end.

Definition js_str (s : jstr) : jv := JStr s.

(** [extractAnalysis] *)
Definition extractAnalysis (block : jstr) : jv :=
  JObj (fold_left
          (fun acc option =>
             match rmatch_ (re_analysis option) block with
             | Some m =>
                 match cap block m 1 with
                 | Some g => if truthy (JStr g) then obj_set acc [option] (JStr (trim g))
                             else acc
                 | None => acc
                 end
             | None => acc
             end)
          [65; 66; 67; 68]%N []).

(** [extractKeyConcepts] *)
Definition extractKeyConcepts (block : jstr) : jv :=
  match rmatch_ re_key_concepts block with
  | Some m =>
      match cap block m 1 with
      | Some g =>
          if truthy (JStr g) then
            JArr (map JStr (filter (fun c => truthy (JStr c))
                                   (map trim (rsplit re_comma_nl g)))) []
          else JArr [] []
      | None => JArr [] []
      end
  | None => JArr [] []
  end.

Definition nat_num (n : nat) : jv := JNum (nat_to_jstr n).

(** One answer of the structured-text fallback. *)
Definition text_answer (problemInfo : jv) (i : nat) (block : jstr) : res jv :=
  let correct :=
    match rmatch_ re_correct block with
    | Some m => match cap block m 1 with Some g => g | None => [] end
    | None => u "?"
    end in
  let explanation :=
    match rmatch_ re_explanation block with
    | Some m => match cap block m 1 with Some g => trim g | None => [] end
    | None => u "No explanation provided"
    end in
  qs <- get_field problemInfo (u "questions");
  qi <- (if truthy qs then index_get qs i else Ok qs);
  questionText <- (if truthy qi then qt <- get_field qi (u "question_text");
                                     Ok (or_else qt (JStr []))
                   else Ok (JStr []));
  options <- (if truthy qi then qo <- get_field qi (u "options");
                                Ok (or_else qo (JObj []))
              else Ok (JObj []));
  Ok (JObj [(u "question_number", nat_num (S i));
            (u "question_text", questionText);
            (u "options", options);
            (u "correct_answer", JStr correct);
            (u "explanation", JStr explanation);
            (u "analysis", extractAnalysis block);
            (u "key_concepts", extractKeyConcepts block)]).

Fixpoint text_answers (problemInfo : jv) (i : nat) (blocks : list jstr)
  : res (list jv) :=
  match blocks with
  | [] => Ok []
  | b :: bs =>
      a <- text_answer problemInfo i b;
      rest <- text_answers problemInfo (S i) bs;
      Ok (a :: rest)
  end.

Definition answers_obj (xs : list jv) : jv := JObj [(u "answers", JArr xs [])].

(** The body of the [try] block of [parseMCQResponse]. *)
Definition parseMCQResponse_try (content : jstr) (problemInfo : jv) : res jv :=
  match rmatch_ re_braces content with
  | Some m =>
      match json_parse (whole content m) with
      | None => Throw
      | Some parsed =>
          ans <- get_field parsed (u "answers");
          if truthy ans && is_array ans then
            qs <- get_field problemInfo (u "questions");
            if truthy qs then backfill parsed qs else Ok parsed
          else Ok parsed
      end
  | None =>
      let blocks := filter (fun b => negb (match trim b with [] => true | _ => false end))
                           (rsplit re_qsplit content) in
      answers <- text_answers problemInfo 0 blocks;
      Ok (answers_obj answers)
  end.

(** [parseMCQResponse]: every exception is caught and answered with
    [{ answers: [] }]. *)
Definition parseMCQResponse (content : jstr) (problemInfo : jv) : jv :=
  match parseMCQResponse_try content problemInfo with
  | Ok v => v
  | Throw => answers_obj []
  | Unmodelled => answers_obj []  (* the try builds no pattern at run time *)
  end.

(* ================================================================= *)
(** ** MCQ questions: extractOptionsFromText, extractQuestionsFromText,
    validateAndFixMCQFormat *)

Definition is_nil {A} (l : list A) : bool :=
  match l with [] => true | _ => false end.

Definition letters : list N := [65; 66; 67; 68]%N.

(** The key of one option match: [match[1].toUpperCase()], then a digit
    [1]..[4] becomes [String.fromCharCode(64 + parseInt(key))]. *)
Definition option_key (k : jstr) : jstr :=
  let k := map up_unit k in
  match k with
  | [c] => if c_14 c then [(c + 16)%N] else k
  | _ => k
  end.

(** [options[key] = match[2].trim()] for every match of the pattern. *)
Fixpoint collect_options (text : jstr) (ms : list rmatch) (acc : obj) : obj :=
  match ms with
  | [] => acc
  | m :: ms' =>
      let k := match cap text m 1 with Some g => g | None => [] end in
      let v := match cap text m 2 with Some g => g | None => [] end in
      collect_options text ms' (obj_set acc (option_key k) (JStr (trim v)))
  end.

(** [`${options[letter]}`]: a missing option prints as [undefined]. *)
Definition option_text (opts : obj) (letter : N) : jstr :=
  match obj_get opts [letter] with
  | Some (JStr s) => s
  | _ => u "undefined"
  end.

(** The loop [for (const letter of ['A','B','C','D'])] removing each
    option from the question text. *)
Fixpoint strip_options (opts : obj) (ls : list N) (qt : jstr) : res jstr :=
  match ls with
  | [] => Ok qt
  | l :: ls' =>
      r <- re_strip_option l (option_text opts l);
      strip_options opts ls' (replace_re qt r)
  end.

(** The [for ... of optionPatterns] loop: the first pattern with a match
    fills the options and stops the loop. *)
Fixpoint try_option_patterns (pats : list re) (text : jstr) : res (jstr * obj) :=
  match pats with
  | [] => Ok (text, [])
  | p :: ps =>
      match exec_all p text with
      | [] => try_option_patterns ps text
      | ms =>
          let opts := collect_options text ms [] in
          qt <- strip_options opts letters text;
          Ok (qt, opts)
      end
  end.

Fixpoint zip_letters (ls : list N) (lines : list jstr) : obj :=
  match ls, lines with
  | l :: ls', x :: xs => ([l], JStr x) :: zip_letters ls' xs
  | _, _ => []
  end.

(** [extractOptionsFromText].  Its argument comes from JSON and need not
    be a string: [pattern.exec] converts it, but the later
    [questionText.replace] (after a match) or [text.split] (without one)
    is then not a function, so a non-string argument always throws. *)
Definition extractOptionsFromText (text : jv) : res (jstr * obj) :=
  match text with
  | JStr s =>
      r <- try_option_patterns option_patterns s;
      let '(questionText, options) := r in
      if is_nil options then
        let lines := filter (fun l => negb (is_nil (trim l))) (split_unit 10 s) in
        match lines with
        | [] => Ok (questionText, options)
        | l0 :: rest =>
            Ok (trim l0, zip_letters letters (map trim rest))
        end
      else Ok (questionText, options)
  | _ => Throw
  end.

Definition question_obj (num text : jstr) (options : obj) : jv :=
  JObj [(u "question_number", JStr num); (u "question_text", JStr text);
        (u "options", JObj options)].

Fixpoint questions_of_matches (text : jstr) (ms : list rmatch) : res (list jv) :=
  match ms with
  | [] => Ok []
  | m :: ms' =>
      let questionNum := match cap text m 1 with Some g => g | None => [] end in
      let fullText := trim (match cap text m 2 with Some g => g | None => [] end) in
      r <- extractOptionsFromText (JStr fullText);
      rest <- questions_of_matches text ms';
      Ok (question_obj questionNum (fst r) (snd r) :: rest)
  end.

Fixpoint questions_of_blocks (i : nat) (blocks : list jstr) : res (list jv) :=
  match blocks with
  | [] => Ok []
  | b :: bs =>
      r <- extractOptionsFromText (JStr b);
      rest <- questions_of_blocks (S i) bs;
      if is_nil (snd r) then Ok rest
      else Ok (question_obj (nat_to_jstr (S i)) (fst r) (snd r) :: rest)
  end.

(** [extractQuestionsFromText]: the numbered, then the lettered pattern;
    if neither found anything, the blank-line separated blocks that have
    options. *)
Definition extractQuestionsFromText (text : jstr) : res (list jv) :=
  q1 <- questions_of_matches text (exec_all re_q_numbered text);
  q2 <- questions_of_matches text (exec_all re_q_lettered text);
  let questions := q1 ++ q2 in
  if is_nil questions then
    questions_of_blocks 0
      (filter (fun b => negb (is_nil (trim b))) (rsplit re_blocks text))
  else Ok questions.

(** [/^[1-4]$/] and [/^[a-d]$/] on [key.toLowerCase()]: only a one-unit
    key can pass either test, and [A]..[D] are the only code units that
    lower-case to [a]..[d]. *)
Definition normalize_key (key : jstr) : jstr :=
  match key with
  | [c] =>
      if c_14 c then [(64 + (c - 48))%N]
      else if c_ad (low_unit c) then [up_unit c]
      else key
  | _ => key
  end.

Definition proto_key : jstr := u "__proto__".

(** [normalizedOptions[k] = v] on an object literal: the key [__proto__]
    runs the inherited [Object.prototype.__proto__] setter and creates no
    own property. *)
Definition obj_assign (o : obj) (k : jstr) (v : jv) : obj :=
  if jeqb k proto_key then o else obj_set o k v.

(** The [Object.entries(question.options).forEach] of the key
    normalisation. *)
Definition normalize_options (es : obj) : obj :=
  fold_left (fun acc kv => obj_assign acc (normalize_key (fst kv)) (snd kv)) es [].

Definition default_options : obj :=
  [(u "A", JStr (u "No options extracted")); (u "B", JStr []); (u "C", JStr []);
   (u "D", JStr [])].

Definition placeholder : jv :=
  JObj [(u "questions",
         JArr [JObj [(u "question_number", JStr (u "1"));
                     (u "question_text", JStr (u "Failed to extract question text properly. Please check screenshots or try again."));
                     (u "options", JObj [(u "A", JStr (u "Option A")); (u "B", JStr (u "Option B"));
                                         (u "C", JStr (u "Option C")); (u "D", JStr (u "Option D"))])]]
              [])].

(** One iteration of the repair loop, on [question = problemInfo.questions[i]]. *)
Definition fix_question (i : nat) (question : jv) : res jv :=
  qn <- get_field question (u "question_number");
  q1 <- (if truthy qn then Ok question
         else set_field question (u "question_number") (JStr (nat_to_jstr (S i))));
  qo <- get_field q1 (u "options");
  missing <- (if truthy qo then ks <- entries qo; Ok (is_nil ks) else Ok true);
  q2 <- (if missing then
           qt <- get_field q1 (u "question_text");
           r <- extractOptionsFromText qt;
           if negb (is_nil (snd r)) then
             q' <- set_field q1 (u "question_text") (JStr (fst r));
             set_field q' (u "options") (JObj (snd r))
           else set_field q1 (u "options") (JObj default_options)
         else Ok q1);
  qo2 <- get_field q2 (u "options");
  es <- entries qo2;
  set_field q2 (u "options") (JObj (normalize_options es)).

Fixpoint fix_questions (i : nat) (qs : list jv) : res (list jv) :=
  match qs with
  | [] => Ok []
  | q :: qs' =>
      q' <- fix_question i q;
      rest <- fix_questions (S i) qs';
      Ok (q' :: rest)
  end.

(** [validateAndFixMCQFormat].  The questions are repaired in place: the
    result is [problemInfo] whose [questions] array holds the repaired
    elements. *)
Definition validateAndFixMCQFormat (problemInfo : jv) (rawResponse : jstr) : res jv :=
  qs <- (if truthy problemInfo then get_field problemInfo (u "questions") else Ok JUndef);
  match qs with
  | JArr ((_ :: _) as elems) props =>
      elems' <- fix_questions 0 elems;
      set_field problemInfo (u "questions") (JArr elems' props)
  | _ =>
      extracted <- extractQuestionsFromText rawResponse;
      if negb (is_nil extracted) then Ok (JObj [(u "questions", JArr extracted [])])
      else Ok placeholder
  end.

(* ================================================================= *)
(** ** Complexity extraction of generateSolutionsHelper *)

Definition default_time : jstr :=
  u "O(n) - Linear time complexity because we only iterate through the array once. Each element is processed exactly one time, and the hashmap lookups are O(1) operations.".

Definition default_space : jstr :=
  u "O(n) - Linear space complexity because we store elements in the hashmap. In the worst case, we might need to store all elements before finding the solution pair.".

(** The rewriting applied to a matched complexity text. *)
Definition normalize_complexity (c : jstr) : jstr :=
  match rmatch_ re_bigo c with
  | None => u "O(n) - " ++ c
  | Some m =>
      if negb (includes c (u "-")) && negb (includes c (u "because")) then
        let notation := whole c m in
        let rest := trim (replace_first c notation []) in
        notation ++ u " - " ++ rest
      else c
  end.

(** [responseContent.match(pattern)], then [match[1].trim()] normalised,
    or the default. *)
Definition complexity_of (pat : re) (dflt responseContent : jstr) : jstr :=
  match rmatch_ pat responseContent with
  | Some m =>
      match cap responseContent m 1 with
      | Some ((_ :: _) as g) => normalize_complexity (trim g)
      | _ => dflt
      end
  | None => dflt
  end.

Definition time_complexity_of (responseContent : jstr) : jstr :=
  complexity_of re_time default_time responseContent.

Definition space_complexity_of (responseContent : jstr) : jstr :=
  complexity_of re_space default_space responseContent.

(* ================================================================= *)
(** ** Problem extraction: the OpenAI response parse *)

(** [/```(?:json)?([\s\S]*?)```/] applied to the response: its group, or
    the whole response. *)
Definition json_text_of (responseText : jstr) : jstr :=
  match rmatch_ re_fence responseText with
  | Some m => match cap responseText m 1 with Some g => g | None => [] end
  | None => responseText
  end.

(** Strategy 2: [JSON.parse(jsonMatch[1].trim())] on the fenced block,
    or on the whole text when there is none. *)
Definition fence_parse (responseText : jstr) : option jv :=
  json_parse (trim (json_text_of responseText)).

(** The inner [try]: strategy 2, and on failure the brace pattern and
    [JSON.parse] again.  [None] is the exception that ends in the error
    "Failed to parse problem information". *)
Definition parse_problem_info (responseText : jstr) : option jv :=
  match fence_parse responseText with
  | Some v => Some v
  | None =>
      match rmatch_ re_braces responseText with
      | Some m => json_parse (whole responseText m)
      | None => None
      end
  end.

(* ================================================================= *)
(** ** The pipeline orchestration of ProcessingHelper

    The main process runs [processScreenshots] and
    [cancelOngoingRequests] as IPC handlers; a run interleaves with other
    handlers only where it awaits real I/O: the screenshot reads, the
    window round trip of [getLanguage] (only when the configuration has
    no language), and the provider calls.  The environment is a sequence
    of inputs: a new [processScreenshots] call, a [cancelOngoingRequests]
    call, or the completion of what a suspended run awaits.  The model
    covers the coding mode with a main window present; the progress
    messages ("processing-status") are left out.  A successful
    extraction outcome stands for a response that parses (the parse is
    [parse_problem_info] above).

    The OpenAI and Anthropic SDK calls get no signal.  The Gemini calls go
    through axios with [{ signal }]: axios rejects with a CanceledError,
    without sending anything, when the signal is already aborted, and may
    reject with one when it is aborted while the request is pending. *)

Inductive provider := OpenAI | Gemini | Anthropic.
Inductive view := VQueue | VSolutions.

(** The [PROCESSING_EVENTS] sent to the renderer. *)
Inductive out :=
| INITIAL_START
| NO_SCREENSHOTS
| API_KEY_INVALID
| INITIAL_SOLUTION_ERROR (msg : jstr)
| PROBLEM_EXTRACTED
| SOLUTION_SUCCESS
| DEBUG_START
| DEBUG_SUCCESS
| DEBUG_ERROR (msg : jstr).

Inductive stage := SExtract | SSynth | SDebug.

(** A provider request actually issued: the run, the stage and whether
    it carries the run's signal. *)
Record call := Call { call_run : nat; call_stage : stage; call_signal : bool }.

(** How a provider request settles.  [NFail] carries what the handlers
    read from the rejection: [error.response.status], [error.status] and
    [error.message]. *)
Inductive netres :=
| NOk
| NFail (resp_status status : option N) (msg : jstr)
| NCanceled.

(** Where a suspended run waits. *)
Inductive pc :=
| ReadShots      (* primary: [await Promise.all(...)] of the screenshot reads *)
| LangExtract    (* [await this.getLanguage()] in processScreenshotsHelper *)
| AwaitExtract   (* the extraction request *)
| LangSynth      (* [await this.getLanguage()] in generateSolutionsHelper *)
| AwaitSynth     (* the synthesis request *)
| DReadShots     (* debug: the screenshot reads *)
| DLang (problem_read : bool) (* [await this.getLanguage()] in processExtraScreenshotsHelper *)
| AwaitDebug.    (* the debug request *)

(** A run and the controller whose signal it was given (the controller
    and the run share their number). *)
Record run := Run { run_id : nat; run_pc : pc }.

Definition is_primary (p : pc) : bool :=
  match p with DReadShots | DLang _ | AwaitDebug => false | _ => true end.

Record config := Config {
  apiProvider : provider;
  client_ok : bool;        (* the provider's client or key is initialised *)
  has_shots : bool;        (* the main queue has screenshots on disk *)
  has_extra : bool;        (* the extra queue has screenshots on disk *)
  lang_in_config : bool    (* [config.language] is set *)
}.

Record state := State {
  cfg : config;
  cur_view : view;
  currentProcessingAbortController : option nat;
  currentExtraProcessingAbortController : option nat;
  aborted : list nat;
  next_id : nat;
  problemInfo : bool;      (* [problemInfo] is non-null *)
  hasDebugged : bool;
  sent : list out;
  calls : list call;
  runs : list run
}.

Definition init (c : config) (v : view) : state :=
  State c v None None [] 0 false false [] [] [].

Definition set_view (s : state) (v : view) : state :=
  State (cfg s) v (currentProcessingAbortController s)
        (currentExtraProcessingAbortController s) (aborted s) (next_id s)
        (problemInfo s) (hasDebugged s) (sent s) (calls s) (runs s).
Definition set_ctrl (s : state) (c : option nat) : state :=
  State (cfg s) (cur_view s) c (currentExtraProcessingAbortController s)
        (aborted s) (next_id s) (problemInfo s) (hasDebugged s) (sent s)
        (calls s) (runs s).
Definition set_extra_ctrl (s : state) (c : option nat) : state :=
  State (cfg s) (cur_view s) (currentProcessingAbortController s) c
        (aborted s) (next_id s) (problemInfo s) (hasDebugged s) (sent s)
        (calls s) (runs s).
Definition abort (s : state) (c : nat) : state :=
  State (cfg s) (cur_view s) (currentProcessingAbortController s)
        (currentExtraProcessingAbortController s) (c :: aborted s) (next_id s)
        (problemInfo s) (hasDebugged s) (sent s) (calls s) (runs s).
Definition set_problem (s : state) (b : bool) : state :=
  State (cfg s) (cur_view s) (currentProcessingAbortController s)
        (currentExtraProcessingAbortController s) (aborted s) (next_id s)
        b (hasDebugged s) (sent s) (calls s) (runs s).
Definition set_debugged (s : state) (b : bool) : state :=
  State (cfg s) (cur_view s) (currentProcessingAbortController s)
        (currentExtraProcessingAbortController s) (aborted s) (next_id s)
        (problemInfo s) b (sent s) (calls s) (runs s).
Definition send (s : state) (e : out) : state :=
  State (cfg s) (cur_view s) (currentProcessingAbortController s)
        (currentExtraProcessingAbortController s) (aborted s) (next_id s)
        (problemInfo s) (hasDebugged s) (sent s ++ [e]) (calls s) (runs s).
Definition issue (s : state) (c : call) : state :=
  State (cfg s) (cur_view s) (currentProcessingAbortController s)
        (currentExtraProcessingAbortController s) (aborted s) (next_id s)
        (problemInfo s) (hasDebugged s) (sent s) (calls s ++ [c]) (runs s).
Definition set_runs (s : state) (rs : list run) : state :=
  State (cfg s) (cur_view s) (currentProcessingAbortController s)
        (currentExtraProcessingAbortController s) (aborted s) (next_id s)
        (problemInfo s) (hasDebugged s) (sent s) (calls s) rs.
(** [new AbortController()] for a new run waiting at [p]. *)
Definition new_run (s : state) (p : pc) : state :=
  State (cfg s) (cur_view s) (currentProcessingAbortController s)
        (currentExtraProcessingAbortController s) (aborted s) (S (next_id s))
        (problemInfo s) (hasDebugged s) (sent s) (calls s)
        (runs s ++ [Run (next_id s) p]).

Definition is_aborted (s : state) (c : nat) : bool := existsb (Nat.eqb c) (aborted s).
Definition provider_of (s : state) : provider := apiProvider (cfg s).

Definition find_run (s : state) (id : nat) : option run :=
  find (fun r => Nat.eqb (run_id r) id) (runs s).
Definition suspend (s : state) (id : nat) (p : pc) : state :=
  set_runs s (map (fun r => if Nat.eqb (run_id r) id then Run id p else r) (runs s)).
Definition finish (s : state) (id : nat) : state :=
  set_runs s (filter (fun r => negb (Nat.eqb (run_id r) id)) (runs s)).

(** The error texts of the handlers. *)
Definition msg_gemini_extract : jstr :=
  u "Failed to process with Gemini API. Please check your API key or try again later.".
Definition msg_gemini_synth : jstr :=
  u "Failed to generate solution with Gemini API. Please check your API key or try again later.".
Definition msg_gemini_debug : jstr :=
  u "Failed to process debug request with Gemini API. Please check your API key or try again later.".
Definition msg_openai_401 : jstr := u "Invalid OpenAI API key. Please check your settings.".
Definition msg_openai_429 : jstr :=
  u "OpenAI API rate limit exceeded or insufficient credits. Please try again later.".
Definition msg_openai_500 : jstr := u "OpenAI server error. Please try again later.".
Definition msg_claude_429 : jstr :=
  u "Claude API rate limit exceeded. Please wait a few minutes before trying again.".
Definition msg_claude_large : jstr :=
  u "Your screenshots contain too much information for Claude to process. Switch to OpenAI or Gemini in settings which can handle larger inputs.".
Definition msg_anthropic_extract : jstr :=
  u "Failed to process with Anthropic API. Please check your API key or try again later.".
Definition msg_anthropic_synth : jstr :=
  u "Failed to generate solution with Anthropic API. Please check your API key or try again later.".
Definition msg_anthropic_debug : jstr :=
  u "Failed to process debug request with Anthropic API. Please check your API key or try again later.".
Definition msg_no_problem : jstr := u "No problem info available".
Definition msg_load_shots : jstr := u "Failed to load screenshot data".
Definition msg_load_debug_shots : jstr := u "Failed to load screenshot data for debugging".

(** [a || b] on strings. *)
Definition or_msg (m d : jstr) : jstr := if is_nil m then d else m.

Definition opt_eqb (o : option N) (n : N) : bool :=
  match o with Some k => N.eqb k n | None => false end.

(** The [catch] of processScreenshotsHelper (an OpenAI extraction error). *)
Definition helper_catch (resp_status : option N) (m : jstr) : jstr :=
  if opt_eqb resp_status 401 then msg_openai_401
  else if opt_eqb resp_status 429 then msg_openai_429
  else if opt_eqb resp_status 500 then msg_openai_500
  else or_msg m (u "Failed to process screenshots. Please try again.").

(** The [catch] of generateSolutionsHelper; its error text is then
    rethrown as [new Error(...)] and returned unchanged by the catch of
    processScreenshotsHelper. *)
Definition synth_catch (resp_status : option N) (m : jstr) : jstr :=
  if opt_eqb resp_status 401 then msg_openai_401
  else if opt_eqb resp_status 429 then msg_openai_429
  else or_msg m (u "Failed to generate solution").

(** The [catch] around the Anthropic calls. *)
Definition claude_catch (status : option N) (m other : jstr) : jstr :=
  if opt_eqb status 429 then msg_claude_429
  else if opt_eqb status 413 || includes m (u "token") then msg_claude_large
  else other.

(** A result [{ success, error }] of a helper. *)
Inductive hres := HOk | HFail (msg : jstr).

(** The end of the [try] of processScreenshots and its [finally]. *)
Definition settle_primary (s : state) (id : nat) (r : hres) : state :=
  let s := finish s id in
  let s := match r with
           | HFail e =>
               let s := if includes e (u "API Key") || includes e (u "OpenAI")
                           || includes e (u "Gemini")
                        then send s API_KEY_INVALID
                        else send s (INITIAL_SOLUTION_ERROR e) in
               set_view s VQueue
           | HOk => set_view (send s SOLUTION_SUCCESS) VSolutions
           end in
  set_ctrl s None.

(** The [catch] of processScreenshots (an [Error], not a cancellation)
    and its [finally]. *)
Definition throw_primary (s : state) (id : nat) (e : jstr) : state :=
  let s := finish s id in
  let s := send (send s (INITIAL_SOLUTION_ERROR e)) (INITIAL_SOLUTION_ERROR e) in
  set_ctrl (set_view s VQueue) None.

(** The debug branch of processScreenshots after its helper returned,
    and its [finally]. *)
Definition settle_debug (s : state) (id : nat) (r : hres) : state :=
  let s := finish s id in
  let s := match r with
           | HOk => send (set_debugged s true) DEBUG_SUCCESS
           | HFail e => send s (DEBUG_ERROR e)
           end in
  set_extra_ctrl s None.

(** The synthesis request of generateSolutionsHelper. *)
Definition begin_synth (s : state) (id : nat) : state :=
  match provider_of s with
  | Gemini =>
      if is_aborted s id then settle_primary s id (HFail msg_gemini_synth)
      else suspend (issue s (Call id SSynth true)) id AwaitSynth
  | _ => suspend (issue s (Call id SSynth false)) id AwaitSynth
  end.

(** [setProblemInfo], PROBLEM_EXTRACTED, then generateSolutionsHelper:
    [problemInfo] is read (it was just stored) before the await of
    [getLanguage]. *)
Definition extracted (s : state) (id : nat) : state :=
  let s := send (set_problem s true) PROBLEM_EXTRACTED in
  if lang_in_config (cfg s) then begin_synth s id else suspend s id LangSynth.

(** The extraction request of processScreenshotsHelper. *)
Definition begin_extract (s : state) (id : nat) : state :=
  match provider_of s with
  | Gemini =>
      if is_aborted s id then settle_primary s id (HFail msg_gemini_extract)
      else suspend (issue s (Call id SExtract true)) id AwaitExtract
  | _ => suspend (issue s (Call id SExtract false)) id AwaitExtract
  end.

(** The request of processExtraScreenshotsHelper, after [problemInfo] was
    read and [getLanguage] awaited. *)
Definition begin_debug (s : state) (id : nat) (problem_read : bool) : state :=
  if negb problem_read then settle_debug s id (HFail msg_no_problem)
  else match provider_of s with
       | Gemini =>
           if is_aborted s id then settle_debug s id (HFail msg_gemini_debug)
           else suspend (issue s (Call id SDebug true)) id AwaitDebug
       | _ => suspend (issue s (Call id SDebug false)) id AwaitDebug
       end.

(** What the environment delivers to a suspended run. *)
Inductive outcome :=
| OShots (any_valid : bool)  (* the reads settled; some screenshot loaded *)
| OLang                      (* [getLanguage] settled *)
| ONet (r : netres).         (* the pending request settled *)

Inductive input :=
| Process                    (* an IPC call of [processScreenshots] *)
| Cancel                     (* an IPC call of [cancelOngoingRequests] *)
| Resume (id : nat) (o : outcome).

(** [processScreenshots] up to its first await. *)
Definition processScreenshots (s : state) : state :=
  if negb (client_ok (cfg s)) then send s API_KEY_INVALID
  else match cur_view s with
       | VQueue =>
           let s := send s INITIAL_START in
           if negb (has_shots (cfg s)) then send s NO_SCREENSHOTS
           else new_run (set_ctrl s (Some (next_id s))) ReadShots
       | VSolutions =>
           if negb (has_extra (cfg s)) then send s NO_SCREENSHOTS
           else let s := send s DEBUG_START in
                new_run (set_extra_ctrl s (Some (next_id s))) DReadShots
       end.

(** [cancelOngoingRequests]. *)
Definition cancelOngoingRequests (s : state) : state :=
  let '(s, was1) := match currentProcessingAbortController s with
                    | Some c => (set_ctrl (abort s c) None, true)
                    | None => (s, false)
                    end in
  let '(s, was2) := match currentExtraProcessingAbortController s with
                    | Some c => (set_extra_ctrl (abort s c) None, true)
                    | None => (s, false)
                    end in
  let s := set_problem (set_debugged s false) false in
  if was1 || was2 then send s NO_SCREENSHOTS else s.

(** A settled request may report a cancellation only if it carried the
    signal and the signal was aborted. *)
Definition admissible (s : state) (id : nat) (r : netres) : bool :=
  match r with
  | NCanceled => match provider_of s with Gemini => is_aborted s id | _ => false end
  | _ => true
  end.

(** The continuation of run [id] waiting at [p] on outcome [o]. *)
Definition resume (s : state) (id : nat) (p : pc) (o : outcome) : state :=
  match p, o with
  | ReadShots, OShots ok =>
      if negb ok then throw_primary s id msg_load_shots
      else if lang_in_config (cfg s) then begin_extract s id
      else suspend s id LangExtract
  | LangExtract, OLang => begin_extract s id
  | AwaitExtract, ONet r =>
      if negb (admissible s id r) then s
      else match r, provider_of s with
           | NOk, _ => extracted s id
           | _, Gemini => settle_primary s id (HFail msg_gemini_extract)
           | NFail rs _ m, OpenAI => settle_primary s id (HFail (helper_catch rs m))
           | NFail _ st m, Anthropic =>
               settle_primary s id (HFail (claude_catch st m msg_anthropic_extract))
           | NCanceled, _ => s
           end
  | LangSynth, OLang => begin_synth s id
  | AwaitSynth, ONet r =>
      if negb (admissible s id r) then s
      else match r, provider_of s with
           | NOk, _ => settle_primary (send s SOLUTION_SUCCESS) id HOk
           | _, Gemini => settle_primary s id (HFail msg_gemini_synth)
           | NFail rs _ m, OpenAI => settle_primary s id (HFail (synth_catch rs m))
           | NFail _ st m, Anthropic =>
               settle_primary s id (HFail (claude_catch st m msg_anthropic_synth))
           | NCanceled, _ => s
           end
  | DReadShots, OShots ok =>
      if negb ok then settle_debug s id (HFail msg_load_debug_shots)
      else if lang_in_config (cfg s) then begin_debug s id (problemInfo s)
      else suspend s id (DLang (problemInfo s))
  | DLang b, OLang => begin_debug s id b
  | AwaitDebug, ONet r =>
      if negb (admissible s id r) then s
      else match r, provider_of s with
           | NOk, _ => settle_debug s id HOk
           | _, Gemini => settle_debug s id (HFail msg_gemini_debug)
           | NFail _ _ m, OpenAI =>
               settle_debug s id (HFail (or_msg m (u "Failed to process debug request")))
           | NFail _ st m, Anthropic =>
               settle_debug s id (HFail (claude_catch st m msg_anthropic_debug))
           | NCanceled, _ => s
           end
  | _, _ => s
  end.

Definition step (s : state) (i : input) : state :=
  match i with
  | Process => processScreenshots s
  | Cancel => cancelOngoingRequests s
  | Resume id o =>
      match find_run s id with
      | Some r => resume s id (run_pc r) o
      | None => s
      end
  end.

Definition run_inputs (s : state) (is : list input) : state := fold_left step is s.

(* ================================================================= *)
(** ** Observations *)

(** [v.k] read as a value, [undefined] when the read throws. *)
Definition field (v : jv) (k : jstr) : jv :=
  match get_field v k with Ok x => x | _ => JUndef end.

(** The question at position [i] of an array, [undefined] past its end. *)
Definition question_at (qs : list jv) (i : nat) : jv :=
  match nth_error qs i with Some q => q | None => JUndef end.

(** The backfill of an answer [a] at index [i] into [a']: when the
    question at [i] is truthy, a falsy [question_text] is replaced by the
    question's (or the empty string), falsy [options] are replaced by the question's
    when those are truthy, and every other property is unchanged; with no
    (truthy) question at [i] the answer is unchanged. *)
Definition backfilled (qs : list jv) (i : nat) (a a' : jv) : Prop :=
  let q := question_at qs i in
  if truthy q then
    field a' (u "question_text")
      = (if truthy (field a (u "question_text")) then field a (u "question_text")
         else or_else (field q (u "question_text")) (JStr []))
    /\ field a' (u "options")
      = (if truthy (field a (u "options")) then field a (u "options")
         else if truthy (field q (u "options")) then field q (u "options")
         else field a (u "options"))
    /\ (forall k, k <> u "question_text" -> k <> u "options" -> field a' k = field a k)
  else a' = a.

Definition is_object (v : jv) : Prop := exists o, v = JObj o.

(** [typeof v === "object"] with an own property [answers] holding an
    array. *)
Definition has_answers_array (v : jv) : bool :=
  match v with
  | JObj o => match obj_get o (u "answers") with Some (JArr _ _) => true | _ => false end
  | _ => false
  end.

(** No code-unit sequence [```] starts inside [x], also not one that
    runs on into a [```] written after [x]. *)
Definition fence_free (x : jstr) : Prop :=
  forall i, i < length x -> is_prefix (u "```") (skipn i (x ++ u "```")) = false.

(** The events a transition sent, when [s'] follows [s]. *)
Definition new_events (s s' : state) : list out := skipn (length (sent s)) (sent s').

(** Configurations of the examples: every client initialised and both
    queues non-empty, with or without [config.language]. *)
Definition cfg_openai_nolang : config := Config OpenAI true true true false.
Definition cfg_gemini : config := Config Gemini true true true true.
Definition cfg_gemini_nolang : config := Config Gemini true true true false.

(* ================================================================= *)
(** ** Response formatting of generateSolutionsHelper *)

(** [\w] *)
Definition c_word : N -> bool :=
  fun c => is_upper c || is_lower c || is_digit c || N.eqb c 95.

(** [/```(?:\w+)?\s*([\s\S]*?)```/] *)
Definition re_code : re :=
  lit (u "```") ;; opt (plus (RChar c_word)) ;; star (RChar c_space) ;;
  RGroup 1 (lstar (RChar c_any)) ;; lit (u "```").

(** [const code = codeMatch ? codeMatch[1].trim() : responseContent] *)
Definition solution_code_of (responseContent : jstr) : jstr :=
  match rmatch_ re_code responseContent with
  | Some m => trim (match cap responseContent m 1 with Some g => g | None => [] end)
  | None => responseContent
  end.

(** [/(?:Thoughts:|Key Insights:|Reasoning:|Approach:)([\s\S]*?)(?:Time complexity:|$)/i] *)
Definition re_thoughts : re :=
  RAlt (liti (u "Thoughts:"))
       (RAlt (liti (u "Key Insights:")) (RAlt (liti (u "Reasoning:")) (liti (u "Approach:")))) ;;
  RGroup 1 (lstar (RChar c_any)) ;;
  RAlt (liti (u "Time complexity:")) REol.

(** [(?:[-*•]|\d+\.)] (the bullet is U+2022). *)
Definition re_marker : re :=
  RAlt (RChar (c_in [45; 42; 8226]%N)) (plus (RChar c_digit) ;; ch 46).

(** [/(?:^|\n)\s*(?:[-*•]|\d+\.)\s*(.* )/g] (space added before the closing parenthesis) *)
Definition re_bullet : re :=
  RAlt RBol (ch 10) ;; star (RChar c_space) ;; re_marker ;; star (RChar c_space) ;;
  RGroup 1 (star (RChar c_dot)).

(** [/^\s*(?:[-*•]|\d+\.)\s*/] *)
Definition re_bullet_prefix : re :=
  RBol ;; star (RChar c_space) ;; re_marker ;; star (RChar c_space).

(** [s.match(re)] for a pattern with the [g] flag: the matched texts,
    [null] (here [[]]) when there is none.  The patterns used with it
    never match the empty string. *)
Definition match_all (r : re) (s : jstr) : list jstr :=
  map (whole s) (exec_all r s).

(** The thoughts of generateSolutionsHelper, before the default. *)
Definition solution_thoughts_of (responseContent : jstr) : list jstr :=
  match rmatch_ re_thoughts responseContent with
  | Some m =>
      match cap responseContent m 1 with
      | Some ((_ :: _) as g) =>
          match match_all re_bullet g with
          | [] => filter (fun l => negb (is_nil l)) (map trim (split_unit 10 g))
          | points =>
              filter (fun t => negb (is_nil t))
                     (map (fun p => trim (replace_re p re_bullet_prefix)) points)
          end
      | _ => []
      end
  | None => []
  end.

(** [thoughts.length > 0 ? thoughts : [...]] in [formattedResponse]. *)
Definition formatted_thoughts (responseContent : jstr) : list jstr :=
  match solution_thoughts_of responseContent with
  | [] => [u "Solution approach based on efficiency and readability"]
  | ts => ts
  end.

(* ================================================================= *)
(** ** Response formatting of processExtraScreenshotsHelper *)

(** [/```(?:[a-zA-Z]+)?([\s\S]*?)```/] *)
Definition re_debug_code : re :=
  lit (u "```") ;; opt (plus (RChar c_letter)) ;; RGroup 1 (lstar (RChar c_any)) ;;
  lit (u "```").

Definition debug_code_default : jstr := u "// Debug mode - see analysis below".

(** [extractedCode]: the group when it is non-empty, trimmed. *)
Definition debug_code_of (debugContent : jstr) : jstr :=
  match rmatch_ re_debug_code debugContent with
  | Some m =>
      match cap debugContent m 1 with
      | Some ((_ :: _) as g) => trim g
      | _ => debug_code_default
      end
  | None => debug_code_default
  end.

(** [String.prototype.replace(re, w)] for a pattern without [g] and a
    replacement text without [$]. *)
Definition replace_re_with (s : jstr) (r : re) (w : jstr) : jstr :=
  match rmatch_ r s with
  | Some m => firstn (rm_start m) s ++ w ++ skipn (m_end m) s
  | None => s
  end.

(** [/issues identified|problems found|bugs found/i] *)
Definition re_h_issues : re :=
  RAlt (liti (u "issues identified")) (RAlt (liti (u "problems found")) (liti (u "bugs found"))).
(** [/code improvements|improvements|suggested changes/i] *)
Definition re_h_improvements : re :=
  RAlt (liti (u "code improvements")) (RAlt (liti (u "improvements")) (liti (u "suggested changes"))).
(** [/optimizations|performance improvements/i] *)
Definition re_h_optimizations : re :=
  RAlt (liti (u "optimizations")) (liti (u "performance improvements")).
(** [/explanation|detailed analysis/i] *)
Definition re_h_explanation : re :=
  RAlt (liti (u "explanation")) (liti (u "detailed analysis")).

(** [formattedDebugContent] *)
Definition format_debug_content (debugContent : jstr) : jstr :=
  if negb (includes debugContent (u "# ")) && negb (includes debugContent (u "## ")) then
    replace_re_with
      (replace_re_with
         (replace_re_with
            (replace_re_with debugContent re_h_issues (u "## Issues Identified"))
            re_h_improvements (u "## Code Improvements"))
         re_h_optimizations (u "## Optimizations"))
      re_h_explanation (u "## Explanation")
  else debugContent.

(** [/(?:^|\n)[ ]*(?:[-*•]|\d+\.)[ ]+([^\n]+)/g] *)
Definition re_debug_bullet : re :=
  RAlt RBol (ch 10) ;; star (ch 32) ;; re_marker ;; plus (ch 32) ;;
  RGroup 1 (plus (RChar c_notnl)).

(** [/^[ ]*(?:[-*•]|\d+\.)[ ]+/] *)
Definition re_debug_bullet_prefix : re :=
  RBol ;; star (ch 32) ;; re_marker ;; plus (ch 32).

(** One element of the debug [thoughts]. *)
Definition debug_point (point : jstr) : jstr :=
  trim (replace_re point re_debug_bullet_prefix).

(** The debug [thoughts]: at most five cleaned bullet points, or the
    default. *)
Definition debug_thoughts_of (formatted : jstr) : list jstr :=
  match match_all re_debug_bullet formatted with
  | [] => [u "Debug analysis based on your screenshots"]
  | points => firstn 5 (map debug_point points)
  end.

(* ================================================================= *)
(** ** generateMCQSolutionCode *)

Fixpoint join_with (sep : N) (ps : list jstr) : jstr :=
  match ps with
  | [] => []
  | [p] => p
  | p :: ps' => p ++ sep :: join_with sep ps'
  end.

(** A number lexeme that is a canonical decimal integer below [10^15]
    (an exact double, printed by [Number::toString] as these digits). *)
Definition canonical_int (l : jstr) : bool :=
  match l with
  | [] => false
  | [c] => is_digit c
  | c :: _ => negb (N.eqb c 48) && forallb is_digit l && (length l <=? 15)
  end.

(** [Number::toString] for integer lexemes below [10^15] in magnitude;
    [-0] prints as [0].  Other lexemes are left open. *)
Definition num_to_str (l : jstr) : res jstr :=
  if canonical_int l then Ok l
  else match l with
       | c :: l' =>
           if N.eqb c 45 && canonical_int l' then
             (if jeqb l' [48%N] then Ok [48%N] else Ok l)
           else Unmodelled
       | [] => Unmodelled
       end.

(** [ToString] as used by template literals.  An object or array with an
    own [toString] property (which a JSON value cannot make callable)
    makes [OrdinaryToPrimitive] throw a TypeError; an array with an own
    [join] property prints as [[object Array]]; otherwise an array is
    joined with commas, [null] and [undefined] elements printing as the
    empty string. *)
Fixpoint to_str (v : jv) : res jstr :=
  match v with
  | JUndef => Ok (u "undefined")
  | JNull => Ok (u "null")
  | JBool b => Ok (if b then u "true" else u "false")
  | JNum l => num_to_str l
  | JStr s => Ok s
  | JArr xs o =>
      if obj_has o (u "toString") then Throw
      else if obj_has o (u "join") then Ok (u "[object Array]")
      else
        parts <- (fix go (xs : list jv) : res (list jstr) :=
                    match xs with
                    | [] => Ok []
                    | x :: xs' =>
                        p <- (match x with JUndef | JNull => Ok [] | _ => to_str x end);
                        ps <- go xs';
                        Ok (p :: ps)
                    end) xs;
        Ok (join_with 44 parts)
  | JObj o => if obj_has o (u "toString") then Throw else Ok (u "[object Object]")
  end.

Fixpoint map_res {A B} (f : A -> res B) (l : list A) : res (list B) :=
  match l with
  | [] => Ok []
  | x :: l' => y <- f x; ys <- map_res f l'; Ok (y :: ys)
  end.

(** The text the [forEach] callback appends for the answer at [index]. *)
Definition mcq_answer_block (index : nat) (answer : jv) : res jstr :=
  qn <- get_field answer (u "question_number");
  qns <- (if truthy qn then to_str qn else Ok (nat_to_jstr (S index)));
  qt <- get_field answer (u "question_text");
  qts <- to_str (or_else qt (JStr (u "Question text not available")));
  ao <- get_field answer (u "options");
  opts <- (if truthy ao then
             es <- entries ao;
             lines <- map_res (fun kv => vs <- to_str (snd kv); Ok (fst kv ++ u ": " ++ vs ++ [10%N])) es;
             Ok (concat lines ++ [10%N])
           else Ok []);
  ca <- get_field answer (u "correct_answer");
  cas <- to_str (or_else ca (JStr (u "?")));
  ex <- get_field answer (u "explanation");
  exs <- to_str (or_else ex (JStr (u "No explanation provided")));
  Ok (u "/* Question " ++ qns ++ u " */" ++ [10%N] ++
      qts ++ [10; 10]%N ++
      opts ++
      u "/* Answer: " ++ cas ++ u " */" ++ [10%N] ++
      u "/* Explanation: " ++ exs ++ u " */" ++ [10; 10]%N).

Fixpoint mcq_blocks (index : nat) (answers : list jv) : res jstr :=
  match answers with
  | [] => Ok []
  | a :: rest =>
      b <- mcq_answer_block index a;
      r <- mcq_blocks (S index) rest;
      Ok (b ++ r)
  end.

Definition msg_no_answers : jstr := u "// MCQ Solution - No answers found".

(** [generateMCQSolutionCode] *)
Definition generateMCQSolutionCode (parsedResponse : jv) : res jstr :=
  if negb (truthy parsedResponse) then Ok msg_no_answers
  else
    ans <- get_field parsedResponse (u "answers");
    match ans with
    | JArr ((_ :: _) as xs) _ =>
        b <- mcq_blocks 0 xs;
        Ok (u "// MCQ Solutions" ++ [10; 10]%N ++ b)
    | _ => Ok msg_no_answers
    end.

(** The end of [handleMCQResponse]: the provider's text is parsed and
    turned into the solution code; an exception of the code generation
    is caught there and answered with [{ success: false }]. *)
Definition mcq_solution_code (responseContent : jstr) (problemInfo : jv) : res jstr :=
  generateMCQSolutionCode (parseMCQResponse responseContent problemInfo).

(* ================================================================= *)
(** ** waitForInitialization and getLanguage *)

Definition maxAttempts : nat := 50.

(** The [while] loop of [waitForInitialization]; [poll k] is the outcome
    of the [k]-th [executeJavaScript("window.__IS_INITIALIZED__")]
    ([Throw]: the promise rejects).  The result is the number of polls
    made; [Throw] is also the final "App failed to initialize" error. *)
Fixpoint wait_loop (attempts remaining : nat) (poll : nat -> res jv) : res nat :=
  match remaining with
  | O => Throw
  | S r =>
      v <- poll attempts;
      if truthy v then Ok (S attempts) else wait_loop (S attempts) r poll
  end.

Definition waitForInitialization (poll : nat -> res jv) : res nat :=
  wait_loop 0 maxAttempts poll.

(** [getLanguage]: [config_language] is the outcome of reading
    [configHelper.loadConfig().language], [window] whether there is a
    main window, [language] the outcome of reading [window.__LANGUAGE__].
    Every exception is caught. *)
Definition getLanguage (config_language : res jv) (window : bool)
    (poll : nat -> res jv) (language : res jv) : jv :=
  match config_language with
  | Ok l =>
      if truthy l then l
      else if window then
        match waitForInitialization poll with
        | Ok _ =>
            match language with
            | Ok (JStr s) => JStr s
            | _ => JStr (u "python")
            end
        | _ => JStr (u "python")
        end
      else JStr (u "python")
  | _ => JStr (u "python")
  end.

(* ================================================================= *)
(** * Properties *)

(* ----------------------------------------------------------------- *)
(** ** Complexity extraction *)

(** C5 (the spec's scenario): for the synthesis text
    "Time complexity: O(n log n) because we sort first." with nothing
    after it, the time pattern finds no match, because its lookahead
    [(?=\n\s*(?:Space complexity|$))] needs a newline before the end of
    the text; [time_complexity] is then the default linear-time text.
    With a newline after the sentence the result is the sentence itself,
    "O(n log n) because we sort first.", as the spec expects. *)
Lemma C5_time_complexity_last_line :
  time_complexity_of (u "Time complexity: O(n log n) because we sort first.")
    = default_time
  /\ time_complexity_of (u "Time complexity: O(n log n) because we sort first." ++ [10%N])
    = u "O(n log n) because we sort first.".
Proof. split; vm_compute; reflexivity. Qed.

(* ----------------------------------------------------------------- *)
(** ** validateAndFixMCQFormat *)

(** C10: with an empty [questions] array and the raw text
    "1. What is 2+2?", validateAndFixMCQFormat returns the question found
    by extractQuestionsFromText as it is, with an empty options map
    (the defaults of the repair loop are never applied to it). *)
Lemma C10_extracted_question_without_options :
  validateAndFixMCQFormat (JObj [(u "questions", JArr [] [])]) (u "1. What is 2+2?")
  = Ok (JObj [(u "questions",
               JArr [question_obj (u "1") (u "What is 2+2?") []] [])]).
Proof. vm_compute. reflexivity. Qed.

(* ----------------------------------------------------------------- *)
(** ** Objects: lookups after updates *)

Lemma jeqb_eq (a b : jstr) : jeqb a b = true <-> a = b.
Proof.
  revert b; induction a as [|x a IH]; intros [|y b]; simpl; try (split; congruence).
  rewrite andb_true_iff, IH, N.eqb_eq. split; [intros [-> ->]; reflexivity|].
  intros H; injection H; auto.
Qed.

Lemma jeqb_refl (a : jstr) : jeqb a a = true.
Proof. apply jeqb_eq; reflexivity. Qed.

Lemma jeqb_false (a b : jstr) : a <> b -> jeqb a b = false.
Proof. intros H; destruct (jeqb a b) eqn:E; [apply jeqb_eq in E; contradiction|reflexivity]. Qed.

Lemma jeqb_sym (a b : jstr) : jeqb a b = jeqb b a.
Proof.
  destruct (jeqb a b) eqn:E; destruct (jeqb b a) eqn:F; auto.
  - apply jeqb_eq in E; subst; rewrite jeqb_refl in F; discriminate.
  - apply jeqb_eq in F; subst; rewrite jeqb_refl in E; discriminate.
Qed.

Lemma obj_has_none (o : obj) (k : jstr) : obj_has o k = false -> obj_get o k = None.
Proof.
  induction o as [|[k' v'] o IH]; simpl; auto.
  intros H; apply orb_false_iff in H as [H1 H2]; rewrite H1; auto.
Qed.

Lemma obj_get_update (o : obj) (k k' : jstr) (v : jv) :
  obj_has o k = true ->
  obj_get (obj_update o k v) k' = if jeqb k' k then Some v else obj_get o k'.
Proof.
  induction o as [|[k0 v0] o IH]; simpl; [discriminate|].
  intros H; destruct (jeqb k k0) eqn:E; simpl.
  - apply jeqb_eq in E; subst k0. destruct (jeqb k' k); reflexivity.
  - simpl in H; rewrite IH by exact H.
    destruct (jeqb k' k0) eqn:F; auto.
    apply jeqb_eq in F; subst k0.
    destruct (jeqb k' k) eqn:G; auto.
    apply jeqb_eq in G; subst k'; rewrite jeqb_refl in E; discriminate.
Qed.

Lemma obj_get_insert_index (o : obj) (k k' : jstr) (v : jv) :
  obj_get (obj_insert_index o k v) k' = if jeqb k' k then Some v else obj_get o k'.
Proof.
  induction o as [|[k0 v0] o IH]; simpl.
  - destruct (jeqb k' k); reflexivity.
  - destruct (is_array_index k0 && (digits_value k0 <? digits_value k)%N) eqn:L; simpl.
    + rewrite IH. destruct (jeqb k' k0) eqn:E0, (jeqb k' k) eqn:E; try reflexivity.
      apply jeqb_eq in E0; apply jeqb_eq in E; subst.
      apply andb_true_iff in L as [_ L]; rewrite N.ltb_irrefl in L; discriminate.
    + destruct (jeqb k' k); reflexivity.
Qed.

Lemma obj_get_app_one (o : obj) (k k' : jstr) (v : jv) :
  obj_get (o ++ [(k, v)]) k' =
  match obj_get o k' with Some x => Some x | None => if jeqb k' k then Some v else None end.
Proof.
  induction o as [|[k0 v0] o IH]; simpl; auto.
  destruct (jeqb k' k0); auto.
Qed.

(** [o[k] = v] makes [k] map to [v] and leaves the other keys alone. *)
Lemma obj_get_set (o : obj) (k k' : jstr) (v : jv) :
  obj_get (obj_set o k v) k' = if jeqb k' k then Some v else obj_get o k'.
Proof.
  unfold obj_set. destruct (obj_has o k) eqn:H.
  - apply obj_get_update; exact H.
  - destruct (is_array_index k).
    + apply obj_get_insert_index.
    + rewrite obj_get_app_one. destruct (jeqb k' k) eqn:E.
      * apply jeqb_eq in E; subst k'. rewrite obj_has_none by exact H; reflexivity.
      * destruct (obj_get o k'); reflexivity.
Qed.

Lemma obj_get_assign (o : obj) (k k' : jstr) (v : jv) :
  k <> proto_key ->
  obj_get (obj_assign o k v) k' = if jeqb k' k then Some v else obj_get o k'.
Proof.
  intros H; unfold obj_assign; rewrite (jeqb_false _ _ H); apply obj_get_set.
Qed.

Lemma normalize_key_proto (k : jstr) : normalize_key k = proto_key -> k = proto_key.
Proof.
  unfold normalize_key. destruct k as [|c [|c' k]]; auto.
  destruct (c_14 c); [discriminate|].
  destruct (c_ad (low_unit c)); [discriminate|auto].
Qed.

Lemma normalize_fold_other (es : obj) (acc : obj) (k' : jstr) :
  (forall kv, In kv es -> fst kv <> proto_key) ->
  ~ In k' (map (fun kv => normalize_key (fst kv)) es) ->
  obj_get (fold_left (fun acc kv => obj_assign acc (normalize_key (fst kv)) (snd kv)) es acc) k'
  = obj_get acc k'.
Proof.
  revert acc; induction es as [|[k0 v0] es IH]; intros acc Hp Hn; simpl; auto.
  simpl in Hn. rewrite IH.
  - rewrite obj_get_assign.
    + rewrite jeqb_false; auto.
    + intros E; apply normalize_key_proto in E; apply (Hp (k0, v0)); simpl; auto.
  - intros kv Hkv; apply Hp; simpl; auto.
  - intros H; apply Hn; auto.
Qed.

Lemma normalize_fold_get (es : obj) (acc : obj) (k : jstr) (v : jv) :
  NoDup (map (fun kv => normalize_key (fst kv)) es) ->
  (forall kv, In kv es -> fst kv <> proto_key) ->
  In (k, v) es ->
  obj_get (fold_left (fun acc kv => obj_assign acc (normalize_key (fst kv)) (snd kv)) es acc)
          (normalize_key k) = Some v.
Proof.
  revert acc; induction es as [|[k0 v0] es IH]; intros acc Hd Hp Hin; [destruct Hin|].
  simpl in Hd; inversion Hd as [|x l Hnotin Hd']; subst.
  simpl. destruct Hin as [E|Hin].
  - injection E as -> ->.
    rewrite normalize_fold_other.
    + rewrite obj_get_assign, jeqb_refl; auto.
      intros E; apply normalize_key_proto in E; apply (Hp (k, v)); simpl; auto.
    + intros kv Hkv; apply Hp; simpl; auto.
    + exact Hnotin.
  - apply IH; auto. intros kv Hkv; apply Hp; simpl; auto.
Qed.

(* ----------------------------------------------------------------- *)
(** ** Option-key normalisation *)

(** C7 (counterexample): two option keys that normalise to the same
    letter, ["a"] and ["A"], leave one entry, and the value of ["a"] is
    lost; a key ["__proto__"] is dropped. *)
Lemma C7_normalize_collision :
  normalize_options [(u "a", JStr (u "x")); (u "A", JStr (u "y"))]
    = [(u "A", JStr (u "y"))]
  /\ normalize_options [(u "__proto__", JStr (u "x"))] = [].
Proof. split; vm_compute; reflexivity. Qed.

(** C7 (amended): in validateAndFixMCQFormat the options of every
    question are rebuilt with their keys normalised: a key ["1"]..["4"]
    becomes ["A"]..["D"], a key ["a"]..["d"] becomes ["A"]..["D"], and any
    other key is kept.  When no key is ["__proto__"] and the normalised
    keys are pairwise distinct, every entry [k: v] of the options gives
    the entry [normalize_key k: v] of the result; an option ["1": "Paris"]
    becomes ["A": "Paris"].  (A key that collides with an earlier one
    overwrites its value; a key ["__proto__"] is dropped.) *)
Theorem C7_normalize_options_keys (es : obj) (k : jstr) (v : jv) :
  NoDup (map (fun kv => normalize_key (fst kv)) es) ->
  (forall kv, In kv es -> fst kv <> proto_key) ->
  In (k, v) es ->
  obj_get (normalize_options es) (normalize_key k) = Some v
  /\ (forall c, (49 <= c <= 52)%N -> normalize_key [c] = [(c + 16)%N])
  /\ (forall c, (97 <= c <= 100)%N -> normalize_key [c] = [(c - 32)%N])
  /\ (forall k', (forall c, k' = [c] -> ~ (49 <= c <= 52)%N /\ ~ (97 <= c <= 100)%N) ->
                 normalize_key k' = k')
  /\ normalize_options [(u "1", JStr (u "Paris"))] = [(u "A", JStr (u "Paris"))].
Proof.
  intros Hd Hp Hin. split; [apply normalize_fold_get; auto|].
  unfold normalize_key, c_14, c_ad, c_range, low_unit, up_unit, is_upper, is_lower.
  split; [|split; [|split]].
  - intros c Hc. replace ((49 <=? c)%N && (c <=? 52)%N) with true
      by (symmetry; apply andb_true_iff; split; apply N.leb_le; lia).
    replace (64 + (c - 48))%N with (c + 16)%N by lia; reflexivity.
  - intros c Hc.
    replace ((65 <=? c)%N && (c <=? 90)%N) with false
      by (symmetry; apply andb_false_iff; right; apply N.leb_gt; lia).
    replace ((49 <=? c)%N && (c <=? 52)%N) with false
      by (symmetry; apply andb_false_iff; right; apply N.leb_gt; lia).
    replace ((97 <=? c)%N && (c <=? 100)%N) with true
      by (symmetry; apply andb_true_iff; split; apply N.leb_le; lia).
    replace ((97 <=? c)%N && (c <=? 122)%N) with true
      by (symmetry; apply andb_true_iff; split; apply N.leb_le; lia).
    reflexivity.
  - intros k' Hk'. destruct k' as [|c [|c' k']]; auto.
    destruct (Hk' c eq_refl) as (H1 & H2).
    destruct ((49 <=? c)%N && (c <=? 52)%N) eqn:E1.
    { apply andb_true_iff in E1 as [E1 E2]; apply N.leb_le in E1, E2; lia. }
    destruct ((65 <=? c)%N && (c <=? 90)%N) eqn:E2.
    + apply andb_true_iff in E2 as [E2 E3]; apply N.leb_le in E2, E3.
      replace ((97 <=? c)%N && (c <=? 122)%N) with false
        by (symmetry; apply andb_false_iff; left; apply N.leb_gt; lia).
      destruct ((97 <=? c + 32)%N && (c + 32 <=? 100)%N); reflexivity.
    + destruct ((97 <=? c)%N && (c <=? 100)%N) eqn:E3; [|reflexivity].
      apply andb_true_iff in E3 as [E3 E4]; apply N.leb_le in E3, E4; lia.
  - vm_compute; reflexivity.
Qed.

Lemma C7_normalize_options_keys_witness :
  obj_get (normalize_options [(u "1", JStr (u "Paris")); (u "b", JStr (u "Rome"))])
          (normalize_key (u "b")) = Some (JStr (u "Rome")).
Proof.
  apply (C7_normalize_options_keys [(u "1", JStr (u "Paris")); (u "b", JStr (u "Rome"))]
           (u "b") (JStr (u "Rome"))).
  - vm_compute. repeat constructor; simpl; intuition discriminate.
  - intros kv [E|[E|[]]]; subst kv; vm_compute; discriminate.
  - simpl; auto.
Defined.

(* ----------------------------------------------------------------- *)
(** ** Backfill of MCQ answers *)

Lemma get_field_truthy (q : jv) (k : jstr) :
  truthy q = true -> get_field q k = Ok (field q k).
Proof.
  intros T; destruct q; simpl in T; try discriminate; unfold field; simpl;
    try reflexivity; destruct (obj_get _ k); reflexivity.
Qed.

Lemma get_field_obj (o : obj) (k : jstr) : get_field (JObj o) k = Ok (field (JObj o) k).
Proof. apply get_field_truthy; reflexivity. Qed.

Lemma field_set (o : obj) (k k' : jstr) (x : jv) :
  field (JObj (obj_set o k x)) k' = if jeqb k' k then x else field (JObj o) k'.
Proof. unfold field; simpl; rewrite obj_get_set; destruct (jeqb k' k); reflexivity. Qed.

Lemma qt_opt_neq : jeqb (u "question_text") (u "options") = false.
Proof. vm_compute; reflexivity. Qed.

Lemma opt_qt_neq : jeqb (u "options") (u "question_text") = false.
Proof. vm_compute; reflexivity. Qed.

Lemma backfill_answer_spec (qs : list jv) (ps : obj) (i : nat) (o : obj) :
  exists o', backfill_answer (JArr qs ps) i (JObj o) = Ok (JObj o')
             /\ backfilled qs i (JObj o) (JObj o').
Proof.
  unfold backfill_answer, backfilled; cbv zeta.
  assert (Hi : index_get (JArr qs ps) i = Ok (question_at qs i))
    by (unfold question_at; simpl; destruct (nth_error qs i); reflexivity).
  rewrite Hi; cbn [bind].
  set (q := question_at qs i).
  destruct (truthy q) eqn:Tq; [|eexists; split; reflexivity].
  rewrite get_field_obj; cbn [bind].
  destruct (truthy (field (JObj o) (u "question_text"))) eqn:Tqt.
  - cbn [bind]. rewrite get_field_obj; cbn [bind].
    destruct (truthy (field (JObj o) (u "options"))) eqn:To.
    + eexists; split; [reflexivity|]. auto.
    + rewrite (get_field_truthy q _ Tq); cbn [bind].
      destruct (truthy (field q (u "options"))) eqn:Tqo; cbn [set_field];
        eexists; (split; [reflexivity|]).
      * rewrite !field_set, qt_opt_neq, jeqb_refl. split; [reflexivity|split; [reflexivity|]].
        intros k _ H2. rewrite field_set, (jeqb_false _ _ H2). reflexivity.
      * auto.
  - rewrite (get_field_truthy q _ Tq); cbn [bind set_field].
    rewrite get_field_obj; cbn [bind].
    rewrite field_set, opt_qt_neq.
    destruct (truthy (field (JObj o) (u "options"))) eqn:To.
    + eexists; split; [reflexivity|]. rewrite !field_set, jeqb_refl, opt_qt_neq.
      split; [reflexivity|split; [reflexivity|]].
      intros k H1 _. rewrite field_set, (jeqb_false _ _ H1). reflexivity.
    + rewrite (get_field_truthy q _ Tq); cbn [bind].
      destruct (truthy (field q (u "options"))) eqn:Tqo; cbn [set_field];
        eexists; (split; [reflexivity|]).
      * rewrite !field_set, qt_opt_neq, opt_qt_neq, !jeqb_refl.
        split; [reflexivity|split; [reflexivity|]].
        intros k H1 H2. rewrite !field_set, (jeqb_false _ _ H1), (jeqb_false _ _ H2).
        reflexivity.
      * rewrite !field_set, opt_qt_neq, !jeqb_refl.
        split; [reflexivity|split; [reflexivity|]].
        intros k H1 _. rewrite field_set, (jeqb_false _ _ H1). reflexivity.
Qed.

Lemma backfill_from_spec (qs : list jv) (ps : obj) (xs : list jv) (i0 : nat) :
  Forall is_object xs ->
  exists xs', backfill_from (JArr qs ps) i0 xs = Ok xs'
              /\ length xs' = length xs
              /\ forall j a, nth_error xs j = Some a ->
                   exists a', nth_error xs' j = Some a' /\ backfilled qs (i0 + j) a a'.
Proof.
  revert i0; induction xs as [|a xs IH]; intros i0 Hf.
  - exists []; repeat split; intros [|j] a H; discriminate.
  - inversion Hf as [|? ? [o ->] Hf']; subst.
    destruct (backfill_answer_spec qs ps i0 o) as (o' & E & B).
    destruct (IH (S i0) Hf') as (xs' & E' & L & H).
    exists (JObj o' :: xs'); simpl; rewrite E; cbn [bind]; rewrite E'; cbn [bind].
    split; [reflexivity|split; [simpl; f_equal; exact L|]].
    intros [|j] a H1; simpl in H1.
    + injection H1 as <-. exists (JObj o'); split; [reflexivity|].
      rewrite Nat.add_0_r; exact B.
    + destruct (H j a H1) as (a' & E2 & B2). exists a'; split; [exact E2|].
      replace (i0 + S j) with (S i0 + j) by lia; exact B2.
Qed.

(** C8: in [parseMCQResponse], when [parsed.answers] is an array of
    objects and [problemInfo.questions] is an array, the backfill leaves
    the answers array in place with as many answers, and the answer at
    every index [i] is [backfilled]: if a question exists at [i], a
    missing (falsy) [question_text] is taken from that question (or the empty string
    when the question has none), missing options are copied from the
    question when it has options, and all other properties are kept; an
    answer with no question at its index is unchanged. *)
Theorem C8_backfill_answers (o : obj) (xs : list jv) (aps : obj)
  (qs : list jv) (ps : obj) :
  obj_get o (u "answers") = Some (JArr xs aps) ->
  Forall is_object xs ->
  exists xs',
    backfill (JObj o) (JArr qs ps)
      = Ok (JObj (obj_update o (u "answers") (JArr xs' aps)))
    /\ length xs' = length xs
    /\ forall i a, nth_error xs i = Some a ->
         exists a', nth_error xs' i = Some a' /\ backfilled qs i a a'.
Proof.
  intros Ha Hf.
  destruct (backfill_from_spec qs ps xs 0 Hf) as (xs' & E & L & H).
  exists xs'. unfold backfill. rewrite Ha, E. cbn [bind].
  split; [reflexivity|split; [exact L|exact H]].
Qed.

Lemma C8_backfill_answers_witness :
  exists xs',
    backfill (JObj [(u "answers", JArr [JObj [(u "answer", JStr (u "A"))]] [])])
             (JArr [JObj [(u "question_text", JStr (u "Capital?"))]] [])
      = Ok (JObj (obj_update [(u "answers", JArr [JObj [(u "answer", JStr (u "A"))]] [])]
                             (u "answers") (JArr xs' [])))
    /\ length xs' = 1
    /\ forall i a, nth_error [JObj [(u "answer", JStr (u "A"))]] i = Some a ->
         exists a', nth_error xs' i = Some a'
                    /\ backfilled [JObj [(u "question_text", JStr (u "Capital?"))]] i a a'.
Proof.
  apply (C8_backfill_answers [(u "answers", JArr [JObj [(u "answer", JStr (u "A"))]] [])]
           [JObj [(u "answer", JStr (u "A"))]] [] [JObj [(u "question_text", JStr (u "Capital?"))]] []).
  - vm_compute; reflexivity.
  - repeat constructor; eexists; reflexivity.
Defined.

(* ----------------------------------------------------------------- *)
(** ** Totality of parseMCQResponse *)

Lemma obj_get_has (o : obj) (k : jstr) (v : jv) : obj_get o k = Some v -> obj_has o k = true.
Proof.
  induction o as [|[k' v'] o IH]; simpl; [discriminate|].
  destruct (jeqb k k'); auto.
Qed.

Lemma backfill_result (p qs r : jv) :
  backfill p qs = Ok r -> r = p \/ has_answers_array r = true.
Proof.
  unfold backfill. destruct p as [| | | | | |o]; try (intros E; injection E; auto).
  destruct (obj_get o (u "answers")) as [[| | | | |xs ps|]|] eqn:G;
    try (intros E; injection E; auto).
  destruct (backfill_from qs 0 xs); cbn [bind]; try discriminate.
  intros E; injection E as <-; right; simpl.
  rewrite (obj_get_update _ _ _ _ (obj_get_has _ _ _ G)), jeqb_refl; reflexivity.
Qed.

(** C9 (counterexample): the brace-delimited JSON [{x:1}] (with [x] quoted) parses, has no
    [answers] field, and is returned as it is. *)
Lemma C9_json_without_answers :
  parseMCQResponse ([123; 34; 120; 34; 58; 49; 125]%N) JNull = JObj [(u "x", JNum (u "1"))]
  /\ has_answers_array (parseMCQResponse ([123; 34; 120; 34; 58; 49; 125]%N) JNull) = false.
Proof. split; vm_compute; reflexivity. Qed.

(** C9 (amended): [parseMCQResponse] is total (a function to [jv]; every
    exception of its body is caught), and its result holds an array
    [answers] (empty when parsing fails), except when the text contains a
    brace-delimited span that parses as JSON to a value without an
    array-valued [answers] field: that parsed value is returned as it
    is. *)
Theorem C9_parseMCQResponse_answers (content : jstr) (problemInfo : jv) :
  let r := parseMCQResponse content problemInfo in
  has_answers_array r = true
  \/ exists m, rmatch_ re_braces content = Some m
               /\ json_parse (whole content m) = Some r
               /\ has_answers_array r = false.
Proof.
  intros r; subst r. unfold parseMCQResponse, parseMCQResponse_try.
  destruct (rmatch_ re_braces content) as [m|] eqn:M.
  - destruct (json_parse (whole content m)) as [parsed|] eqn:J; [|left; reflexivity].
    assert (Hp : has_answers_array parsed = true
                 \/ exists m', Some m = Some m' /\ Some parsed = Some parsed
                               /\ has_answers_array parsed = false)
      by (destruct (has_answers_array parsed); [left|right; exists m]; auto).
    destruct (get_field parsed (u "answers")) as [ans| |]; cbn [bind]; try (left; reflexivity).
    destruct (truthy ans && is_array ans); [|destruct Hp as [H|(m' & E & _ & H)];
                                             [left; exact H|right; exists m; auto]].
    destruct (get_field problemInfo (u "questions")) as [qs| |]; cbn [bind];
      try (left; reflexivity).
    destruct (truthy qs).
    + destruct (backfill parsed qs) as [r| |] eqn:B; try (left; reflexivity).
      destruct (backfill_result _ _ _ B) as [->|H]; [|left; exact H].
      destruct Hp as [H|(m' & E & _ & H)]; [left; exact H|right; exists m; auto].
    + destruct Hp as [H|(m' & E & _ & H)]; [left; exact H|right; exists m; auto].
  - destruct (text_answers problemInfo 0 _); cbn [bind]; left; reflexivity.
Qed.

(* ----------------------------------------------------------------- *)
(** ** Strategy 2 of the problem parse: the fenced block *)

(** *** The JSON lexer and white space *)

Lemma js_space_cases (c : N) :
  js_space c = true ->
  In c [9; 10; 11; 12; 13; 32; 160; 5760; 8192; 8193; 8194; 8195; 8196;
        8197; 8198; 8199; 8200; 8201; 8202; 8232; 8233; 8239; 8287; 12288;
        65279]%N.
Proof.
  unfold js_space; intros H; apply existsb_exists in H as (x & Hin & E).
  apply N.eqb_eq in E; subst; exact Hin.
Qed.

Ltac space_cases H :=
  apply js_space_cases in H; simpl in H;
  repeat (destruct H as [<-|H]); [..|contradiction].

(** What a white-space code unit does in each lexer state. *)
Lemma space_facts (c : N) :
  js_space c = true ->
  (forall n, num_next n c = None)
  /\ hex_val c = None
  /\ (forall ts, step_between ts c = if json_ws c then Some (LBetween, ts) else None)
  /\ (forall acc ts, lex_step (LEsc acc) ts c = None)
  /\ N.eqb c 34 = false /\ N.eqb c 92 = false.
Proof.
  intros H; space_cases H;
    (split; [intros []; reflexivity|]);
    (split; [reflexivity|]);
    (split; [intros ts; reflexivity|]);
    (split; [intros acc ts; reflexivity|]);
    split; reflexivity.
Qed.

(** Lexer states reachable from [LBetween]: the rest of a word holds no
    white space. *)
Definition good (st : lst) : Prop :=
  match st with
  | LWord rest _ => forall x, In x rest -> js_space x = false
  | _ => True
  end.

Lemma good_between_step (ts ts' : list tok) (c : N) (st' : lst) :
  step_between ts c = Some (st', ts') -> good st'.
Proof.
  unfold step_between; intros E.
  repeat match type of E with
         | context [if ?b then _ else _] => destruct b
         end;
    try discriminate; injection E as <- <-; try exact I;
    intros x Hx; simpl in Hx;
    repeat (destruct Hx as [<-|Hx]; [reflexivity|]); contradiction.
Qed.

Lemma good_step (st st' : lst) (ts ts' : list tok) (c : N) :
  good st -> lex_step st ts c = Some (st', ts') -> good st'.
Proof.
  intros G E; destruct st; simpl in E.
  - exact (good_between_step _ _ _ _ E).
  - repeat match type of E with
           | context [if ?b then _ else _] => destruct b
           end; try discriminate; injection E as <- <-; exact I.
  - repeat match type of E with
           | context [if ?b then _ else _] => destruct b
           end; try discriminate; injection E as <- <-; exact I.
  - destruct (hex_val c); [|discriminate].
    destruct (Nat.eqb n 3); injection E as <- <-; exact I.
  - destruct (num_next n c); [injection E as <- <-; exact I|].
    destruct (num_final n); [exact (good_between_step _ _ _ _ E)|discriminate].
  - destruct rest as [|x [|y rest]]; [discriminate| |].
    + destruct (N.eqb c x); [injection E as <- <-; exact I|discriminate].
    + destruct (N.eqb c x); [|discriminate]. injection E as <- <-.
      intros z Hz; apply G; simpl; auto.
Qed.

(** A white-space code unit ends a token or is skipped between tokens;
    in every other state the lexer fails on it or, inside a string,
    never reaches the end. *)
Lemma lex_go_spaces (w : jstr) (st : lst) (ts r : list tok) :
  good st -> forallb js_space w = true ->
  lex_go st ts w = Some r -> lex_finish st ts = Some r.
Proof.
  revert st ts; induction w as [|c w IH]; intros st ts G Hw E; [exact E|].
  simpl in Hw; apply andb_true_iff in Hw as [Hc Hw].
  destruct (space_facts c Hc) as (Fn & Fh & Fb & Fe & F34 & F92).
  cbn [lex_go] in E. destruct st; [simpl in E|simpl in E|rewrite Fe in E; discriminate
                                   |simpl in E|simpl in E|simpl in E].
  - rewrite Fb in E. destruct (json_ws c); [|discriminate]. exact (IH LBetween _ I Hw E).
  - rewrite F34, F92 in E. destruct (c <? 32)%N; [discriminate|].
    specialize (IH (LStr (c :: acc)) _ I Hw E); discriminate.
  - rewrite Fh in E; discriminate.
  - rewrite Fn in E. simpl. destruct (num_final n); [|discriminate].
    rewrite Fb in E. destruct (json_ws c); [|discriminate]. exact (IH LBetween _ I Hw E).
  - destruct rest as [|x [|y rest]]; [discriminate| |];
      destruct (N.eqb c x) eqn:X; try discriminate;
      apply N.eqb_eq in X; subst x; rewrite (G c (or_introl eq_refl)) in Hc; discriminate.
Qed.

Lemma lex_go_app_spaces (x w : jstr) (st : lst) (ts r : list tok) :
  good st -> forallb js_space w = true ->
  lex_go st ts (x ++ w) = Some r -> lex_go st ts x = Some r.
Proof.
  revert st ts; induction x as [|c x IH]; intros st ts G Hw E.
  - exact (lex_go_spaces w st ts r G Hw E).
  - simpl in E |- *. destruct (lex_step st ts c) as [[st' ts']|] eqn:S; [|discriminate].
    exact (IH st' ts' (good_step _ _ _ _ _ G S) Hw E).
Qed.

Lemma lex_go_trim_start (s : jstr) (ts r : list tok) :
  lex_go LBetween ts s = Some r -> lex_go LBetween ts (trim_start s) = Some r.
Proof.
  induction s as [|c s IH]; intros E; [exact E|].
  simpl. destruct (js_space c) eqn:Hc; [|exact E].
  apply IH. simpl in E. destruct (space_facts c Hc) as (_ & _ & Fb & _).
  rewrite Fb in E. destruct (json_ws c); [exact E|discriminate].
Qed.

Lemma trim_start_split (l : jstr) :
  exists w, l = w ++ trim_start l /\ forallb js_space w = true.
Proof.
  induction l as [|c l (w & E & Hw)]; [exists []; auto|].
  simpl. destruct (js_space c) eqn:Hc.
  - exists (c :: w); simpl; rewrite Hc, <- E; auto.
  - exists []; auto.
Qed.

Lemma trim_end_split (s : jstr) :
  exists w, s = trim_end s ++ w /\ forallb js_space w = true.
Proof.
  destruct (trim_start_split (rev s)) as (w & E & Hw).
  exists (rev w); split.
  - unfold trim_end. rewrite <- (rev_involutive s) at 1. rewrite E at 1. rewrite rev_app_distr. reflexivity.
  - rewrite forallb_forall in Hw |- *. intros x Hx; apply Hw, in_rev; exact Hx.
Qed.

Lemma lex_trim (s : jstr) (r : list tok) : lex s = Some r -> lex (trim s) = Some r.
Proof.
  unfold lex, trim; intros E.
  apply lex_go_trim_start in E.
  destruct (trim_end_split (trim_start s)) as (w & Es & Hw).
  rewrite Es in E. exact (lex_go_app_spaces _ _ LBetween _ _ I Hw E).
Qed.

Lemma json_parse_trim (s : jstr) (v : jv) : json_parse s = Some v -> json_parse (trim s) = Some v.
Proof.
  unfold json_parse; destruct (lex s) as [ts|] eqn:L; [|discriminate].
  rewrite (lex_trim _ _ L); auto.
Qed.

Lemma json_parse_nil : json_parse [] = None.
Proof. reflexivity. Qed.

Lemma json_parse_j (s : jstr) : json_parse (106%N :: s) = None.
Proof. reflexivity. Qed.

(** *** The matcher on literal text and on a lazy [[\s\S]*?] *)

Lemma skipn_nth (inp : jstr) (pos : nat) :
  skipn pos inp = match nth_error inp pos with
                  | Some x => x :: skipn (S pos) inp
                  | None => []
                  end.
Proof.
  revert pos; induction inp as [|a inp IH]; intros [|pos]; simpl; auto.
Qed.

Lemma mt_lit (inp w : jstr) (pos : nat) (caps : list (nat * (nat * nat)))
  (k : mstate -> option mstate) :
  mt inp (lit w) (MS pos caps) k
  = if is_prefix w (skipn pos inp) then k (MS (pos + length w) caps) else None.
Proof.
  revert pos; induction w as [|c w IH]; intros pos; simpl.
  - rewrite Nat.add_0_r; reflexivity.
  - rewrite (skipn_nth inp pos). destruct (nth_error inp pos) as [x|]; [|reflexivity].
    simpl. destruct (N.eqb c x); simpl; [|reflexivity].
    rewrite IH. replace (S pos + length w) with (pos + S (length w)) by lia. reflexivity.
Qed.

Lemma is_prefix_app_long (w x y : jstr) :
  length w <= length x -> is_prefix w (x ++ y) = is_prefix w x.
Proof.
  revert x; induction w as [|c w IH]; intros [|d x] L; simpl in *; auto; [lia|].
  rewrite IH by lia; reflexivity.
Qed.

Lemma is_prefix_self (w y : jstr) : is_prefix w (w ++ y) = true.
Proof. induction w as [|c w IH]; simpl; auto. rewrite N.eqb_refl, IH; reflexivity. Qed.

Lemma skipn_app_len (a b : jstr) (i : nat) : skipn (length a + i) (a ++ b) = skipn i b.
Proof. induction a as [|c a IH]; simpl; auto. Qed.

Lemma skipn_app_le (a b : jstr) (i : nat) :
  i <= length a -> skipn i (a ++ b) = skipn i a ++ b.
Proof.
  revert i; induction a as [|c a IH]; intros [|i] L; simpl in *; auto; [lia|].
  apply IH; lia.
Qed.

(** No [```] starts at position [i] of [x ++ u "```" ++ y] inside [x]. *)
Lemma fence_free_at (x y : jstr) (i : nat) :
  fence_free x -> i < length x ->
  is_prefix (u "```") (skipn i (x ++ u "```" ++ y)) = false.
Proof.
  intros F L. rewrite app_assoc, skipn_app_le by (rewrite length_app; lia).
  rewrite is_prefix_app_long.
  - exact (F i L).
  - rewrite length_skipn, length_app; simpl; lia.
Qed.

(** A lazy [[\s\S]*?] from [j] stops at the first position [q] where the
    continuation succeeds. *)
Lemma lazy_any (inp : jstr) (lo q : nat) (x : mstate) (K : mstate -> option mstate) :
  q <= length inp ->
  (forall j, lo <= j < q -> K (MS j []) = None) ->
  K (MS q []) = Some x ->
  forall fuel j, lo <= j <= q -> q - j < fuel ->
  star_loop (fun st1 k1 => mt inp (RChar c_any) st1 k1) [] false fuel (MS j []) K = Some x.
Proof.
  intros Lq Hn Hs fuel; induction fuel as [|fuel IH]; intros j Lj Lf; [lia|].
  simpl. destruct (Nat.eq_dec j q) as [->|Ne]; [rewrite Hs; reflexivity|].
  rewrite (Hn j) by lia. simpl.
  destruct (nth_error inp j) eqn:Nj.
  - unfold c_any; simpl. rewrite (proj2 (Nat.ltb_lt j (S j))) by lia.
    apply IH; lia.
  - apply nth_error_None in Nj; lia.
Qed.

Lemma search_at (inp : jstr) (r : re) (p : nat) (st : mstate) :
  (forall j, j < p -> mt inp r (MS j []) Some = None) ->
  mt inp r (MS p []) Some = Some st ->
  forall fuel i, i <= p -> p - i < fuel -> search inp r i fuel = Some (RM p st).
Proof.
  intros Hn Hs fuel; induction fuel as [|fuel IH]; intros i Li Lf; [lia|].
  simpl. destruct (Nat.eq_dec i p) as [->|Ne]; [rewrite Hs; reflexivity|].
  rewrite (Hn i) by lia. apply IH; lia.
Qed.

Lemma skipn_app_exact (a b : jstr) : skipn (length a) (a ++ b) = b.
Proof. rewrite <- (Nat.add_0_r (length a)), skipn_app_len; reflexivity. Qed.

(** The group of the fence pattern on a text with one fenced block. *)
Lemma fence_text (pre tag s post : jstr) :
  (tag = [] \/ tag = u "json") ->
  fence_free pre -> fence_free s ->
  is_prefix (u "json") (s ++ u "```" ++ post) = false ->
  json_text_of (pre ++ u "```" ++ tag ++ s ++ u "```" ++ post) = s.
Proof.
  intros Ht Fp Fs Hj.
  set (inp := pre ++ u "```" ++ tag ++ s ++ u "```" ++ post).
  set (q0 := length pre + 3 + length tag).
  set (q1 := q0 + length s).
  assert (E0 : forall i, skipn (q0 + i) inp = skipn i (s ++ u "```" ++ post)).
  { intros i. unfold q0, inp.
    replace (length pre + 3 + length tag + i) with (length pre + (3 + (length tag + i))) by lia.
    rewrite skipn_app_len. simpl. apply skipn_app_len. }
  assert (Lin : length inp = q1 + 3 + length post).
  { unfold inp, q1, q0; rewrite !length_app; simpl; lia. }
  set (K := fun st1 : mstate => mt inp (lit (u "```"))
              (MS (ms_pos st1) ((1, (q0, ms_pos st1)) :: ms_caps st1)) Some).
  assert (KS : K (MS q1 []) = Some (MS (q1 + 3) [(1, (q0, q1))])).
  { unfold K; simpl ms_pos; simpl ms_caps. rewrite mt_lit.
    unfold q1; rewrite E0, skipn_app_exact, is_prefix_self. reflexivity. }
  assert (KN : forall j, q0 <= j < q1 -> K (MS j []) = None).
  { intros j Lj. unfold K; simpl ms_pos; simpl ms_caps. rewrite mt_lit.
    replace j with (q0 + (j - q0)) by lia. rewrite E0, fence_free_at; auto.
    unfold q1 in Lj; lia. }
  assert (M : mt inp re_fence (MS (length pre) []) Some = Some (MS (q1 + 3) [(1, (q0, q1))])).
  { unfold re_fence. cbn [mt]. rewrite mt_lit.
    assert (E1 : skipn (length pre) inp = u "```" ++ tag ++ s ++ u "```" ++ post)
      by (apply skipn_app_exact).
    rewrite E1, is_prefix_self.
    change (length (u "```")) with 3.
    assert (Z : mt inp (lstar (RChar c_any)) (MS q0 [])
                  (fun st0 => mt inp (lit (u "```"))
                     (MS (ms_pos st0) ((1, (q0, ms_pos st0)) :: ms_caps st0)) Some)
                = Some (MS (q1 + 3) [(1, (q0, q1))])).
    { unfold lstar; cbn [mt groups].
      apply (lazy_any inp q0 q1 _ K); auto; unfold q1 in *; simpl ms_pos; lia. }
    assert (E2 : skipn (length pre + 3) inp = tag ++ s ++ u "```" ++ post).
    { unfold inp; rewrite skipn_app_len; reflexivity. }
    unfold opt; cbn [mt]. rewrite mt_lit, E2.
    destruct Ht as [->| ->].
    - rewrite app_nil_l, Hj.
      replace (length pre + 3) with q0 by (unfold q0; simpl; lia). exact Z.
    - rewrite is_prefix_self. change (length pre + 3 + length (u "json")) with q0.
      cbn [ms_pos]. rewrite Z. reflexivity. }
  assert (N : forall j, j < length pre -> mt inp re_fence (MS j []) Some = None).
  { intros j Lj. unfold re_fence. cbn [mt]. rewrite mt_lit.
    unfold inp; rewrite fence_free_at; auto. }
  unfold json_text_of, rmatch_, exec_from.
  rewrite (search_at inp re_fence (length pre) _ N M) by (unfold q1, q0 in Lin; lia).
  unfold cap; simpl.
  unfold sublist. replace (q1 - q0) with (length s) by (unfold q1; lia).
  rewrite <- (Nat.add_0_r q0), E0; simpl skipn.
  rewrite firstn_app, firstn_all, Nat.sub_diag; simpl. apply app_nil_r.
Qed.

(** *** The property *)

(** C6 (counterexample): a fence tagged [JSON] in upper case.  The
    pattern's optional [json] does not match it, the group starts with
    the tag, and [JSON.parse] of the group fails, while the text inside
    the fence parses. *)
Lemma C6_uppercase_tag :
  fence_parse (u "```JSON" ++ [10; 123; 34; 97; 34; 58; 32; 49; 125; 10]%N ++ u "```") = None
  /\ json_parse ([10; 123; 34; 97; 34; 58; 32; 49; 125; 10]%N)
     = Some (JObj [(u "a", JNum (u "1"))]).
Proof. split; vm_compute; reflexivity. Qed.

(** C6 (amended): for a response text [pre ```tag s ``` post] whose
    fence is untagged or tagged [json] (lower case), with no [```] inside
    [pre] or [s], strategy 2 (the first fenced block, trimmed, then
    [JSON.parse]) gives exactly the value of [JSON.parse(s)] whenever [s]
    parses. *)
Theorem C6_fenced_json (pre tag s post : jstr) (v : jv) :
  (tag = [] \/ tag = u "json") ->
  fence_free pre -> fence_free s ->
  json_parse s = Some v ->
  fence_parse (pre ++ u "```" ++ tag ++ s ++ u "```" ++ post) = Some v.
Proof.
  intros Ht Fp Fs J. unfold fence_parse.
  rewrite fence_text; auto; [apply json_parse_trim; exact J|].
  destruct s as [|c s']; [rewrite json_parse_nil in J; discriminate|].
  change (u "json") with (106%N :: u "son"). cbn [app is_prefix].
  destruct (N.eqb 106 c) eqn:E; [|reflexivity].
  apply N.eqb_eq in E; subst c. rewrite json_parse_j in J; discriminate.
Qed.

Lemma C6_fenced_json_witness :
  fence_parse (u "Here:" ++ [10%N] ++ u "```" ++ u "json"
               ++ [10; 123; 34; 97; 34; 58; 32; 49; 125; 10]%N ++ u "```"
               ++ [10%N] ++ u "Done")
  = Some (JObj [(u "a", JNum (u "1"))]).
Proof.
  apply (C6_fenced_json (u "Here:" ++ [10%N]) (u "json")
           [10; 123; 34; 97; 34; 58; 32; 49; 125; 10]%N ([10%N] ++ u "Done")).
  - right; reflexivity.
  - intros i Hi; simpl in Hi.
    repeat (destruct i as [|i]; [vm_compute; reflexivity|]); lia.
  - intros i Hi; simpl in Hi.
    repeat (destruct i as [|i]; [vm_compute; reflexivity|]); lia.
  - vm_compute; reflexivity.
Defined.

(* ----------------------------------------------------------------- *)
(** ** The pipeline orchestration *)

(** Case analysis on every [match] of the goal, innermost first. *)
Ltac split_all :=
  repeat (match goal with
          | |- context [match ?x with _ => _ end] =>
              lazymatch x with
              | context [match _ with _ => _ end] => fail
              | _ => destruct x eqn:?
              end
          end; cbv beta iota zeta).

Ltac unfold_resume :=
  unfold resume, extracted, begin_extract, begin_synth, begin_debug,
    settle_primary, settle_debug, throw_primary.

Lemma step_cfg (s : state) (i : input) : cfg (step s i) = cfg s.
Proof.
  destruct i as [| |id o]; simpl.
  - unfold processScreenshots. split_all; reflexivity.
  - unfold cancelOngoingRequests. split_all; reflexivity.
  - destruct (find_run s id) as [[rid p]|]; [|reflexivity]. simpl.
    unfold_resume. split_all; reflexivity.
Qed.

Lemma step_aborted (s : state) (i : input) (x : nat) :
  In x (aborted s) -> In x (aborted (step s i)).
Proof.
  intros H; destruct i as [| |id o]; simpl.
  - unfold processScreenshots. split_all; exact H.
  - unfold cancelOngoingRequests. split_all; simpl; auto.
  - destruct (find_run s id) as [[rid p]|]; [|exact H]. simpl.
    unfold_resume. split_all; exact H.
Qed.

Lemma is_aborted_step (s : state) (i : input) (r : nat) :
  is_aborted s r = true -> is_aborted (step s i) r = true.
Proof.
  unfold is_aborted; intros H; apply existsb_exists in H as (x & Hx & E).
  apply existsb_exists; exists x; split; [apply step_aborted; exact Hx|exact E].
Qed.

Lemma skipn_length_app {A} (l m : list A) : skipn (length l) (l ++ m) = m.
Proof. induction l; simpl; auto. Qed.

Lemma find_run_suspend_self (x : state) (id : nat) (p : pc) (q : run) :
  find_run x id = Some q -> find_run (suspend x id p) id = Some (Run id p).
Proof.
  unfold find_run, suspend; simpl. induction (runs x) as [|r0 rs IH]; simpl; [discriminate|].
  destruct (Nat.eqb (run_id r0) id) eqn:E; simpl.
  - rewrite Nat.eqb_refl; reflexivity.
  - rewrite E; exact IH.
Qed.


Lemma find_filter_none (l : list run) (id : nat) :
  find (fun r => Nat.eqb (run_id r) id) (filter (fun r => negb (Nat.eqb (run_id r) id)) l) = None.
Proof.
  induction l as [|q l IH]; simpl; [reflexivity|].
  destruct (Nat.eqb (run_id q) id) eqn:E; simpl; [exact IH|rewrite E; exact IH].
Qed.

Lemma primary_end_indep (t t' : state) (id : nat) (p : pc) (o : outcome) :
  find_run t id = Some (Run id p) -> is_primary p = true ->
  find_run (step t (Resume id o)) id = None ->
  cfg t' = cfg t -> aborted t' = aborted t -> find_run t' id = Some (Run id p) ->
  find_run (step t' (Resume id o)) id = None
  /\ currentProcessingAbortController (step t' (Resume id o)) = None
  /\ new_events t' (step t' (Resume id o)) = new_events t (step t (Resume id o))
  /\ cur_view (step t' (Resume id o)) = cur_view (step t (Resume id o)).
Proof.
  intros Ht Hp Hend Hc Ha Ht'. simpl step in *. rewrite Ht in Hend. rewrite Ht, Ht'.
  simpl run_pc in *. unfold new_events.
  destruct p; try discriminate; destruct o as [ok| |r]; cbn [resume] in Hend |- *;
    try (rewrite Ht in Hend; discriminate).
  all: revert Hend; unfold_resume; unfold admissible, provider_of, is_aborted;
    cbn [cfg aborted send set_problem]; rewrite ?Hc, ?Ha.
  all: split_all; intros Hend.
  all: first
    [ exfalso; erewrite find_run_suspend_self in Hend; [discriminate|exact Ht]
    | exfalso; congruence
    | cbn [sent cur_view currentProcessingAbortController set_ctrl set_view send finish
           set_runs set_problem];
      rewrite <- ?app_assoc, !skipn_length_app;
      split; [unfold find_run; cbn; apply find_filter_none|auto] ].
Qed.

Lemma primary_end_view (t : state) (id : nat) (p : pc) (o : outcome) :
  find_run t id = Some (Run id p) -> is_primary p = true ->
  find_run (step t (Resume id o)) id = None ->
  (cur_view (step t (Resume id o)) = VSolutions
   <-> In SOLUTION_SUCCESS (new_events t (step t (Resume id o)))).
Proof.
  intros Ht Hp Hend. simpl step in *. rewrite Ht in Hend |- *.
  simpl run_pc in *. unfold new_events.
  destruct p; try discriminate; destruct o as [ok| |r]; cbn [resume] in Hend |- *;
    try (rewrite Ht in Hend; discriminate).
  all: revert Hend; unfold_resume; split_all; intros Hend.
  all: first
    [ exfalso; erewrite find_run_suspend_self in Hend; [discriminate|exact Ht]
    | exfalso; congruence
    | cbn [sent cur_view currentProcessingAbortController set_ctrl set_view send finish
           set_runs set_problem];
      rewrite <- ?app_assoc, !skipn_length_app; simpl;
      split; intros H;
      first [ reflexivity | discriminate H | (left; reflexivity)
            | (repeat (destruct H as [H|H]; [discriminate H|]); contradiction) ] ].
Qed.

(** *** C1 *)

(** C1 (code bug): generateSolutionsHelper receives the run's signal and
    passes it to its Gemini request, but its OpenAI and Anthropic requests
    are sent without it, and no stage checks the signal itself.  So with
    OpenAI or Anthropic, a run whose signal is aborted while it waits for
    [getLanguage] between extraction and synthesis still issues its
    synthesis request, with no signal, when the language arrives, and
    then waits for it. *)
Theorem C1_synthesis_sent_after_cancel (s : state) (r : nat) :
  provider_of s <> Gemini -> is_aborted s r = true -> find_run s r = Some (Run r LangSynth) ->
  In (Call r SSynth false) (calls (step s (Resume r OLang)))
  /\ find_run (step s (Resume r OLang)) r = Some (Run r AwaitSynth).
Proof.
  intros Hn Ha Hf. simpl. rewrite Hf. simpl. unfold begin_synth.
  destruct (provider_of s); [| congruence |];
    (split; [simpl; apply in_or_app; right; left; reflexivity
            |eapply find_run_suspend_self; exact Hf]).
Qed.

Lemma C1_synthesis_sent_after_cancel_witness :
  In (Call 0 SSynth false)
     (calls (step (run_inputs (init cfg_openai_nolang VQueue)
                     [Process; Resume 0 (OShots true); Resume 0 OLang;
                      Resume 0 (ONet NOk); Cancel])
                  (Resume 0 OLang)))
  /\ In (Call 0 SSynth false)
     (calls (step (run_inputs (init (Config Anthropic true true true false) VQueue)
                     [Process; Resume 0 (OShots true); Resume 0 OLang;
                      Resume 0 (ONet NOk); Cancel])
                  (Resume 0 OLang))).
Proof.
  split; apply (C1_synthesis_sent_after_cancel _ 0);
    solve [vm_compute; discriminate | vm_compute; reflexivity].
Defined.

(** *** C2 *)

(** C2 (counterexample): with Gemini, a second [processScreenshots] while
    run 0 reads its screenshots leaves run 0's signal unaborted and run 0
    alive, and the controller field now holds run 1's controller.  When
    run 1 has succeeded (solutions view) and run 0 then fails, run 0's
    settlement puts the view back to the queue. *)
Lemma C2_second_run_keeps_first :
  is_aborted (run_inputs (init cfg_gemini VQueue) [Process; Process]) 0 = false
  /\ find_run (run_inputs (init cfg_gemini VQueue) [Process; Process]) 0 = Some (Run 0 ReadShots)
  /\ currentProcessingAbortController (run_inputs (init cfg_gemini VQueue) [Process; Process])
     = Some 1
  /\ cur_view (run_inputs (init cfg_gemini VQueue)
                 [Process; Process; Resume 1 (OShots true); Resume 1 (ONet NOk);
                  Resume 1 (ONet NOk)]) = VSolutions
  /\ cur_view (run_inputs (init cfg_gemini VQueue)
                 [Process; Process; Resume 1 (OShots true); Resume 1 (ONet NOk);
                  Resume 1 (ONet NOk); Resume 0 (OShots false)]) = VQueue.
Proof. repeat split; vm_compute; reflexivity. Qed.

(** C2 (amended): [processScreenshots] does not abort the controller of
    a primary run in flight: a new primary run gets a new controller,
    stored in the controller field in place of the old one, the set of
    aborted signals is unchanged and the first run goes on.  At whatever
    later state a primary run ends (through [settle_primary] or
    [throw_primary]), it clears the controller field, whichever run the
    field belongs to; the events it sends and the view it leaves are the
    same in every state with the same configuration, aborted signals and
    run, whatever the view, the controller field, the other runs and the
    events sent before; and the view is the solutions view exactly when
    it sent SOLUTION_SUCCESS. *)
Theorem C2_new_run_does_not_cancel (s : state) (r : run) :
  client_ok (cfg s) = true -> has_shots (cfg s) = true -> cur_view s = VQueue ->
  In r (runs s) -> is_primary (run_pc r) = true ->
  aborted (step s Process) = aborted s
  /\ In r (runs (step s Process))
  /\ In (Run (next_id s) ReadShots) (runs (step s Process))
  /\ currentProcessingAbortController (step s Process) = Some (next_id s)
  /\ (forall t t' id p o,
        find_run t id = Some (Run id p) -> is_primary p = true ->
        find_run (step t (Resume id o)) id = None ->
        cfg t' = cfg t -> aborted t' = aborted t -> find_run t' id = Some (Run id p) ->
        find_run (step t' (Resume id o)) id = None
        /\ currentProcessingAbortController (step t' (Resume id o)) = None
        /\ new_events t' (step t' (Resume id o)) = new_events t (step t (Resume id o))
        /\ cur_view (step t' (Resume id o)) = cur_view (step t (Resume id o))
        /\ (cur_view (step t' (Resume id o)) = VSolutions
            <-> In SOLUTION_SUCCESS (new_events t' (step t' (Resume id o))))).
Proof.
  intros Hc Hs Hv Hr _. split; [|split; [|split; [|split]]].
  1-4: simpl; unfold processScreenshots; rewrite Hc, Hv; simpl; rewrite Hs; simpl.
  - reflexivity.
  - apply in_or_app; left; exact Hr.
  - apply in_or_app; right; left; reflexivity.
  - reflexivity.
  - intros t t' id p o Ht Hp Hend Hcf Ha Ht'.
    destruct (primary_end_indep t t' id p o Ht Hp Hend Hcf Ha Ht') as (E1 & E2 & E3 & E4).
    split; [exact E1|split; [exact E2|split; [exact E3|split; [exact E4|]]]].
    exact (primary_end_view t' id p o Ht' Hp E1).
Qed.

(** Run 0 is started, then run 1 while run 0 reads its screenshots; run 0
    then fails to load them.  It ends with the same events whether or not
    run 1 was started, and clears the controller field that holds run 1's
    controller. *)
Lemma C2_new_run_does_not_cancel_witness :
  aborted (step (run_inputs (init cfg_gemini VQueue) [Process]) Process)
    = aborted (run_inputs (init cfg_gemini VQueue) [Process])
  /\ In (Run 0 ReadShots) (runs (step (run_inputs (init cfg_gemini VQueue) [Process]) Process))
  /\ currentProcessingAbortController
       (step (step (run_inputs (init cfg_gemini VQueue) [Process]) Process)
             (Resume 0 (OShots false))) = None
  /\ new_events (step (run_inputs (init cfg_gemini VQueue) [Process]) Process)
       (step (step (run_inputs (init cfg_gemini VQueue) [Process]) Process)
             (Resume 0 (OShots false)))
     = new_events (run_inputs (init cfg_gemini VQueue) [Process])
         (step (run_inputs (init cfg_gemini VQueue) [Process]) (Resume 0 (OShots false))).
Proof.
  destruct (C2_new_run_does_not_cancel (run_inputs (init cfg_gemini VQueue) [Process])
              (Run 0 ReadShots)) as (H1 & H2 & _ & _ & H5);
    [reflexivity|reflexivity|reflexivity|vm_compute; auto|reflexivity|].
  destruct (H5 (run_inputs (init cfg_gemini VQueue) [Process])
               (step (run_inputs (init cfg_gemini VQueue) [Process]) Process)
               0 ReadShots (OShots false)) as (_ & H6 & H7 & _);
    [vm_compute; reflexivity|reflexivity|vm_compute; reflexivity
    |reflexivity|reflexivity|vm_compute; reflexivity|].
  split; [exact H1|split; [exact H2|split; [exact H6|exact H7]]].
Defined.

(** *** C3 *)



(** *** C4 *)




(* ================================================================= *)
(** * Further properties of ProcessingHelper *)

(** ** Generic facts: trim, the search loop, greedy classes *)

Lemma trim_start_idem (s : jstr) : trim_start (trim_start s) = trim_start s.
Proof.
  induction s as [|c s IH]; simpl; [reflexivity|].
  destruct (js_space c) eqn:Hc; [exact IH|simpl; rewrite Hc; reflexivity].
Qed.

Lemma trim_start_length (s : jstr) : length (trim_start s) <= length s.
Proof. induction s as [|c s IH]; simpl; [lia|destruct (js_space c); simpl; lia]. Qed.

Lemma trim_start_fixed_head (c : N) (t : jstr) :
  trim_start (c :: t) = c :: t -> js_space c = false.
Proof.
  simpl; destruct (js_space c) eqn:Hc; [|reflexivity].
  intros E; pose proof (trim_start_length t) as L; rewrite E in L; simpl in L; lia.
Qed.

Lemma trim_start_trim_end (y : jstr) :
  trim_start y = y -> trim_start (trim_end y) = trim_end y.
Proof.
  intros Hy. destruct (trim_end_split y) as (w & E & _).
  destruct (trim_end y) as [|c t] eqn:T; [reflexivity|].
  rewrite E in Hy; simpl in Hy |- *.
  destruct (js_space c) eqn:Hc; [|reflexivity].
  pose proof (trim_start_length (t ++ w)) as L; rewrite Hy in L; simpl in L; lia.
Qed.

Lemma trim_end_idem (s : jstr) : trim_end (trim_end s) = trim_end s.
Proof. unfold trim_end; rewrite rev_involutive, trim_start_idem; reflexivity. Qed.

Lemma trim_idem (s : jstr) : trim (trim s) = trim s.
Proof.
  unfold trim. rewrite (trim_start_trim_end (trim_start s)) by apply trim_start_idem.
  apply trim_end_idem.
Qed.

Lemma search_none (inp : jstr) (r : re) :
  forall fuel i, (forall j, i <= j -> mt inp r (MS j []) Some = None) ->
  search inp r i fuel = None.
Proof.
  induction fuel as [|fuel IH]; intros i H; simpl; [reflexivity|].
  rewrite (H i) by lia. apply IH; intros j Hj; apply H; lia.
Qed.

Lemma search_some (inp : jstr) (r : re) :
  forall fuel i m, search inp r i fuel = Some m ->
  i <= rm_start m /\ mt inp r (MS (rm_start m) []) Some = Some (rm_state m).
Proof.
  induction fuel as [|fuel IH]; intros i m H; simpl in H; [discriminate|].
  destruct (mt inp r (MS i []) Some) as [st|] eqn:E.
  - injection H as <-; simpl; auto.
  - destruct (IH _ _ H) as [L M]; split; [lia|exact M].
Qed.

Lemma exec_all_fuel_in (r : re) (inp : jstr) :
  forall fuel i m, In m (exec_all_fuel r inp i fuel) ->
  mt inp r (MS (rm_start m) []) Some = Some (rm_state m).
Proof.
  induction fuel as [|fuel IH]; intros i m H; simpl in H; [contradiction|].
  destruct (exec_from r inp i) as [m0|] eqn:E; [|contradiction].
  destruct H as [<-|H]; [|exact (IH _ _ H)].
  exact (proj2 (search_some _ _ _ _ _ E)).
Qed.

Lemma clear_caps_nil (st : mstate) : clear_caps [] st = st.
Proof.
  destruct st as [p caps]; unfold clear_caps; simpl; f_equal.
  induction caps as [|e caps IH]; simpl; [reflexivity|rewrite IH; reflexivity].
Qed.

(** A greedy star over a class from [j]: on success, the continuation
    succeeded at some [q >= j] with every code unit in between in the
    class. *)
Lemma greedy_class_inv (inp : jstr) (p : N -> bool) (K : mstate -> option mstate) (x : mstate) :
  forall fuel j caps,
  star_loop (fun st1 k1 => mt inp (RChar p) st1 k1) [] true fuel (MS j caps) K = Some x ->
  exists q, j <= q
    /\ (forall t, j <= t < q -> exists c, nth_error inp t = Some c /\ p c = true)
    /\ K (MS q caps) = Some x.
Proof.
  induction fuel as [|fuel IH]; intros j caps H; [discriminate|].
  cbn [star_loop] in H. rewrite clear_caps_nil in H. cbn [mt ms_pos ms_caps] in H.
  destruct (nth_error inp j) as [c|] eqn:Nj.
  - destruct (p c) eqn:Pc.
    + destruct (j <? S j) eqn:L; [|apply Nat.ltb_ge in L; lia].
      destruct (star_loop _ [] true fuel (MS (S j) caps) K) as [y|] eqn:S.
      * injection H as ->. destruct (IH _ _ S) as (q & Lq & Hq & Kq).
        exists q; split; [lia|split; [|exact Kq]].
        intros t Lt. destruct (Nat.eq_dec t j) as [->|Ne]; [exists c; auto|apply Hq; lia].
      * exists j; split; [lia|split; [intros; lia|exact H]].
    + exists j; split; [lia|split; [intros; lia|exact H]].
  - exists j; split; [lia|split; [intros; lia|exact H]].
Qed.

(** Conversely, a greedy star over a class runs to the end [q] of the
    run of class members and hands over to the continuation there. *)
Lemma greedy_class_max (inp : jstr) (p : N -> bool) (K : mstate -> option mstate)
    (x : mstate) (q : nat) (caps : list (nat * (nat * nat))) :
  (forall c, nth_error inp q = Some c -> p c = false) ->
  K (MS q caps) = Some x ->
  forall fuel j, j <= q -> q - j < fuel ->
  (forall t, j <= t < q -> exists c, nth_error inp t = Some c /\ p c = true) ->
  star_loop (fun st1 k1 => mt inp (RChar p) st1 k1) [] true fuel (MS j caps) K = Some x.
Proof.
  intros Hq Kq fuel; induction fuel as [|fuel IH]; intros j Lj Lf Hr; [lia|].
  cbn [star_loop]. rewrite clear_caps_nil. cbn [mt ms_pos ms_caps].
  destruct (Nat.eq_dec j q) as [->|Ne].
  - destruct (nth_error inp q) as [c|] eqn:Nq; [rewrite (Hq c eq_refl)|]; exact Kq.
  - destruct (Hr j) as (c & Nj & Pc); [lia|]. rewrite Nj, Pc.
    rewrite (proj2 (Nat.ltb_lt j (S j))) by lia.
    rewrite IH; auto; [lia|lia|intros t Lt; apply Hr; lia].
Qed.

(** No [w] starts anywhere in a text that does not include it. *)
Lemma includes_false_prefix (s w : jstr) :
  includes s w = false -> forall j, is_prefix w (skipn j s) = false.
Proof.
  induction s as [|c s IH]; intros H j.
  - simpl in H. rewrite skipn_nil. destruct w; [discriminate|reflexivity].
  - simpl in H. apply orb_false_iff in H as [H1 H2].
    destruct j as [|j]; [exact H1|apply IH; exact H2].
Qed.

(** *** The Big-O pattern [/O\([^)]+\)/i] *)

Lemma nth_error_firstn_lt {A} (l : list A) (n t : nat) :
  t < n -> nth_error (firstn n l) t = nth_error l t.
Proof.
  revert n t; induction l as [|x l IH]; intros [|n] [|t] L; simpl; auto; try lia.
  apply IH; lia.
Qed.

Lemma nth_error_skipn_add {A} (l : list A) (a t : nat) :
  nth_error (skipn a l) t = nth_error l (a + t).
Proof.
  revert a; induction l as [|x l IH]; intros [|a]; simpl; auto.
  destruct t; reflexivity.
Qed.

Lemma nth_sublist_app (c rest : jstr) (a b t : nat) :
  b <= length c -> t < b - a ->
  nth_error (sublist a b c ++ rest) t = nth_error c (a + t).
Proof.
  intros Lb Lt. unfold sublist. rewrite nth_error_app1.
  - rewrite nth_error_firstn_lt by lia. apply nth_error_skipn_add.
  - rewrite length_firstn, length_skipn; lia.
Qed.

(** A match of the Big-O pattern at [i]: [O] or [o], [(], a non-empty
    run without [)], then [)] at [q]. *)
Lemma bigo_inv (inp : jstr) (i : nat) (st : mstate) :
  mt inp re_bigo (MS i []) Some = Some st ->
  exists o q,
    nth_error inp i = Some o /\ low_unit o = 111%N /\
    nth_error inp (S i) = Some 40%N /\ S (S i) < q /\
    (forall t, S (S i) <= t < q -> exists c, nth_error inp t = Some c /\ c_notrp c = true) /\
    nth_error inp q = Some 41%N /\ st = MS (S q) [].
Proof.
  unfold re_bigo, plus, chi, ch. cbn [mt ms_pos ms_caps].
  destruct (nth_error inp i) as [o|] eqn:N0; [|discriminate].
  destruct (N.eqb (low_unit o) (low_unit 79)) eqn:E0; [|discriminate].
  cbn [mt ms_pos ms_caps].
  destruct (nth_error inp (S i)) as [b|] eqn:N1; [|discriminate].
  destruct (N.eqb 40 b) eqn:E1; [|discriminate]. apply N.eqb_eq in E1; subst b.
  cbn [mt ms_pos ms_caps].
  destruct (nth_error inp (S (S i))) as [d|] eqn:N2; [|discriminate].
  destruct (c_notrp d) eqn:E2; [|discriminate].
  cbn [mt ms_pos ms_caps groups].
  intros H. apply greedy_class_inv in H as (q & Lq & Hr & Kq).
  cbn [mt ms_pos ms_caps] in Kq.
  destruct (nth_error inp q) as [e|] eqn:Nq; [|discriminate].
  destruct (N.eqb 41 e) eqn:Ee; [|discriminate]. apply N.eqb_eq in Ee; subst e.
  injection Kq as <-.
  exists o, q. split; [reflexivity|split; [apply N.eqb_eq in E0; exact E0|]].
  split; [reflexivity|split; [lia|split; [|auto]]].
  intros t Lt. destruct (Nat.eq_dec t (S (S i))) as [->|Ne]; [exists d; auto|apply Hr; lia].
Qed.

Lemma bigo_match (inp : jstr) (i q : nat) (o : N) :
  nth_error inp i = Some o -> low_unit o = 111%N ->
  nth_error inp (S i) = Some 40%N -> S (S i) < q ->
  (forall t, S (S i) <= t < q -> exists c, nth_error inp t = Some c /\ c_notrp c = true) ->
  nth_error inp q = Some 41%N ->
  mt inp re_bigo (MS i []) Some = Some (MS (S q) []).
Proof.
  intros N0 E0 N1 Lq Hr Nq.
  unfold re_bigo, plus, chi, ch. cbn [mt ms_pos ms_caps].
  rewrite N0, E0. cbn [mt ms_pos ms_caps]. rewrite N1. cbn [mt ms_pos ms_caps].
  destruct (Hr (S (S i))) as (d & N2 & E2); [lia|]. rewrite N2, E2.
  cbn [mt ms_pos ms_caps groups].
  assert (Lin : q < length inp) by (apply nth_error_Some; rewrite Nq; discriminate).
  apply (greedy_class_max inp c_notrp _ _ q []).
  - intros c Hc; rewrite Nq in Hc; injection Hc as <-; reflexivity.
  - cbn [mt ms_pos ms_caps]. rewrite Nq. reflexivity.
  - lia.
  - lia.
  - intros t Lt; apply Hr; lia.
Qed.

Lemma rtest_at_0 (r : re) (inp : jstr) (st : mstate) :
  mt inp r (MS 0 []) Some = Some st -> rtest r inp = true.
Proof.
  intros H; unfold rtest, rmatch_, exec_from. rewrite Nat.sub_0_r. simpl. rewrite H; reflexivity.
Qed.

Lemma normalize_complexity_bigo (c : jstr) : rtest re_bigo (normalize_complexity c) = true.
Proof.
  unfold normalize_complexity.
  destruct (rmatch_ re_bigo c) as [m|] eqn:M.
  - destruct (negb (includes c (u "-")) && negb (includes c (u "because"))).
    + unfold rmatch_, exec_from in M. apply search_some in M as [_ M].
      destruct (bigo_inv _ _ _ M) as (o & q & N0 & E0 & N1 & Lq & Hr & Nq & Est).
      assert (Lin : q < length c) by (apply nth_error_Some; rewrite Nq; discriminate).
      assert (Em : m_end m = S q) by (unfold m_end; rewrite Est; reflexivity).
      unfold whole; rewrite Em.
      apply (rtest_at_0 _ _ (MS (S (q - rm_start m)) [])).
      apply (bigo_match _ 0 (q - rm_start m) o).
      * rewrite nth_sublist_app by lia. rewrite Nat.add_0_r; exact N0.
      * exact E0.
      * rewrite nth_sublist_app by lia. rewrite Nat.add_1_r; exact N1.
      * lia.
      * intros t Lt. rewrite nth_sublist_app by lia. apply Hr; lia.
      * rewrite nth_sublist_app by lia. replace (rm_start m + (q - rm_start m)) with q by lia.
        exact Nq.
    + unfold rtest; rewrite M; reflexivity.
  - apply (rtest_at_0 _ _ (MS 4 [])).
    apply (bigo_match _ 0 3 79); try reflexivity; [lia|].
    intros t Lt; assert (t = 2) as -> by lia; exists 110%N; split; reflexivity.
Qed.

(** *** Complexity texts always carry a Big-O token *)

(** The time and the space complexity texts of generateSolutionsHelper always contain a Big-O token [O(...)]: the defaults do, and so does every normalised extracted text. *)
Theorem complexity_has_bigo (responseContent : jstr) :
  rtest re_bigo (time_complexity_of responseContent) = true
  /\ rtest re_bigo (space_complexity_of responseContent) = true.
Proof.
  assert (G : forall pat dflt, rtest re_bigo dflt = true ->
              rtest re_bigo (complexity_of pat dflt responseContent) = true).
  { intros pat dflt D. unfold complexity_of.
    destruct (rmatch_ pat responseContent) as [m|]; [|exact D].
    destruct (cap responseContent m 1) as [[|c g]|]; try exact D.
    apply normalize_complexity_bigo. }
  split; apply G; vm_compute; reflexivity.
Qed.

(** *** Responses without a fence *)

Lemma lit_prefixed_none (inp w : jstr) (r : re) (j : nat) :
  is_prefix w (skipn j inp) = false -> mt inp (lit w ;; r) (MS j []) Some = None.
Proof. intros H; cbn [mt]; rewrite mt_lit, H; reflexivity. Qed.

Lemma no_fence_rmatch (inp : jstr) (r : re) :
  includes inp (u "```") = false -> rmatch_ (lit (u "```") ;; r) inp = None.
Proof.
  intros H; unfold rmatch_, exec_from; apply search_none; intros j _.
  apply lit_prefixed_none, includes_false_prefix, H.
Qed.

(** A response without the code-unit sequence ``` has no fenced block: generateSolutionsHelper keeps the whole response as its code, processExtraScreenshotsHelper keeps the debug placeholder code, and strategy 2 parses the trimmed response itself. *)
Theorem unfenced_response (c : jstr) :
  includes c (u "```") = false ->
  solution_code_of c = c /\ debug_code_of c = debug_code_default
  /\ fence_parse c = json_parse (trim c).
Proof.
  intros H. unfold solution_code_of, debug_code_of, fence_parse, json_text_of.
  unfold re_code, re_debug_code, re_fence. rewrite !no_fence_rmatch by exact H.
  auto.
Qed.

Lemma unfenced_response_witness :
  includes (u "{}") (u "```") = false
  /\ solution_code_of (u "{}") = u "{}" /\ debug_code_of (u "{}") = debug_code_default
  /\ fence_parse (u "{}") = json_parse (trim (u "{}")).
Proof. split; [reflexivity|apply unfenced_response; reflexivity]. Defined.

(** *** Thoughts *)

Lemma in_filter_trim (f : jstr -> jstr) (l : list jstr) (t : jstr) :
  In t (filter (fun x => negb (is_nil x)) (map (fun x => trim (f x)) l)) ->
  t <> [] /\ trim t = t.
Proof.
  intros H; apply filter_In in H as [H N]. apply in_map_iff in H as (x & <- & _).
  split; [destruct (trim (f x)); [discriminate|congruence]|apply trim_idem].
Qed.

(** The thoughts of generateSolutionsHelper are never empty, and each one is a non-empty trimmed string. *)
Theorem formatted_thoughts_clean (responseContent : jstr) :
  formatted_thoughts responseContent <> []
  /\ forall t, In t (formatted_thoughts responseContent) -> t <> [] /\ trim t = t.
Proof.
  assert (S : forall t, In t (solution_thoughts_of responseContent) -> t <> [] /\ trim t = t).
  { unfold solution_thoughts_of. intros t.
    destruct (rmatch_ re_thoughts responseContent) as [m|]; [|contradiction].
    destruct (cap responseContent m 1) as [[|c g]|]; try contradiction.
    destruct (match_all re_bullet (c :: g)) as [|p ps]; intros H.
    - exact (in_filter_trim (fun x => x) _ _ H).
    - exact (in_filter_trim (fun x => replace_re x re_bullet_prefix) _ _ H). }
  unfold formatted_thoughts. destruct (solution_thoughts_of responseContent) as [|t0 ts] eqn:E.
  - split; [discriminate|]. intros t [<-|[]]. split; [discriminate|vm_compute; reflexivity].
  - split; [discriminate|]. intros t Ht; apply S; try rewrite E; exact Ht.
Qed.

Lemma in_firstn {A} (n : nat) (l : list A) (x : A) : In x (firstn n l) -> In x l.
Proof. intros H; rewrite <- (firstn_skipn n l); apply in_or_app; left; exact H. Qed.

(** processExtraScreenshotsHelper yields between one and five thoughts, each trimmed. *)
Theorem debug_thoughts_bounds (formatted : jstr) :
  1 <= length (debug_thoughts_of formatted) <= 5
  /\ forall t, In t (debug_thoughts_of formatted) -> trim t = t.
Proof.
  unfold debug_thoughts_of. destruct (match_all re_debug_bullet formatted) as [|p ps].
  - split; [simpl; lia|]. intros t [<-|[]]; vm_compute; reflexivity.
  - split.
    + change (1 <= S (length (firstn 4 (map debug_point ps))) <= 5).
      pose proof (firstn_le_length 4 (map debug_point ps)). lia.
    + intros t Ht. apply in_firstn in Ht. apply in_map_iff in Ht as (x & <- & _).
      apply trim_idem.
Qed.

Lemma debug_prefix_keeps (x : jstr) :
  (forall h, hd_error x = Some h -> h = 10%N) -> replace_re x re_debug_bullet_prefix = x.
Proof.
  intros H. unfold replace_re, rmatch_, exec_from.
  rewrite search_none; [reflexivity|]. intros [|j] _.
  - destruct x as [|h x]; [reflexivity|]. rewrite (H h eq_refl). reflexivity.
  - reflexivity.
Qed.

Lemma debug_bullet_newline (inp : jstr) (j : nat) (st : mstate) :
  0 < j -> mt inp re_debug_bullet (MS j []) Some = Some st -> nth_error inp j = Some 10%N.
Proof.
  intros L. unfold re_debug_bullet. cbn [mt ms_pos].
  replace (Nat.eqb j 0) with false by (symmetry; apply Nat.eqb_neq; lia).
  unfold ch. cbn [mt ms_pos].
  destruct (nth_error inp j) as [c|]; [|discriminate].
  destruct (N.eqb 10 c) eqn:E; [apply N.eqb_eq in E; subst; reflexivity|discriminate].
Qed.

(** A debug bullet found after the start of the text begins with its newline, which the cleaning pattern [/^[ ]*(?:[-*•]|\d+\.)[ ]+/] does not skip: the thought keeps its marker and is only trimmed. *)
Theorem debug_point_keeps_marker (formatted : jstr) (m : rmatch) :
  In m (exec_all re_debug_bullet formatted) -> 0 < rm_start m ->
  (forall h, hd_error (whole formatted m) = Some h -> h = 10%N)
  /\ debug_point (whole formatted m) = trim (whole formatted m).
Proof.
  intros Hm L. apply exec_all_fuel_in in Hm.
  apply debug_bullet_newline in Hm; [|exact L].
  assert (Hd : forall h, hd_error (whole formatted m) = Some h -> h = 10%N).
  { unfold whole, sublist. rewrite skipn_nth, Hm.
    destruct (m_end m - rm_start m) as [|n]; simpl; intros h E; [discriminate|injection E; auto]. }
  split; [exact Hd|]. unfold debug_point. rewrite debug_prefix_keeps by exact Hd.
  reflexivity.
Qed.

Lemma debug_point_keeps_marker_witness :
  In (nth 0 (exec_all re_debug_bullet (u "Intro" ++ [10%N] ++ u "- a")) (RM 0 (MS 0 [])))
     (exec_all re_debug_bullet (u "Intro" ++ [10%N] ++ u "- a"))
  /\ 0 < rm_start (nth 0 (exec_all re_debug_bullet (u "Intro" ++ [10%N] ++ u "- a"))
                     (RM 0 (MS 0 [])))
  /\ debug_point (whole (u "Intro" ++ [10%N] ++ u "- a")
                    (nth 0 (exec_all re_debug_bullet (u "Intro" ++ [10%N] ++ u "- a"))
                       (RM 0 (MS 0 []))))
     = u "- a".
Proof.
  assert (Hin : In (nth 0 (exec_all re_debug_bullet (u "Intro" ++ [10%N] ++ u "- a"))
                        (RM 0 (MS 0 [])))
                   (exec_all re_debug_bullet (u "Intro" ++ [10%N] ++ u "- a")))
    by (vm_compute; left; reflexivity).
  assert (Hl : 0 < rm_start (nth 0 (exec_all re_debug_bullet (u "Intro" ++ [10%N] ++ u "- a"))
                                (RM 0 (MS 0 []))))
    by (vm_compute; lia).
  split; [exact Hin|split; [exact Hl|]].
  destruct (debug_point_keeps_marker _ _ Hin Hl) as [_ ->]. vm_compute; reflexivity.
Defined.

(** *** generateMCQSolutionCode *)

Lemma bind_ok {A B} (m : res A) (f : A -> res B) (b : B) :
  bind m f = Ok b -> exists a, m = Ok a /\ f a = Ok b.
Proof. destruct m; simpl; [eauto|discriminate|discriminate]. Qed.

Lemma mcq_blocks_null (xs : list jv) :
  forall i b, In JNull xs \/ In JUndef xs -> mcq_blocks i xs <> Ok b.
Proof.
  induction xs as [|x xs IH]; intros i b H E; [destruct H as [[]|[]]|].
  simpl in E. apply bind_ok in E as (b1 & E1 & E2). apply bind_ok in E2 as (r & E3 & _).
  destruct H as [[->|H]|[->|H]].
  - unfold mcq_answer_block in E1; simpl in E1; discriminate.
  - exact (IH _ _ (or_introl H) E3).
  - unfold mcq_answer_block in E1; simpl in E1; discriminate.
  - exact (IH _ _ (or_intror H) E3).
Qed.

(** An answers array that holds null or undefined makes generateMCQSolutionCode throw (reading [answer.question_number]). *)
Theorem mcq_code_null_answer (p : jv) (xs : list jv) (ps : obj) :
  field p (u "answers") = JArr xs ps -> In JNull xs \/ In JUndef xs ->
  forall c, generateMCQSolutionCode p <> Ok c.
Proof.
  intros F H c. unfold generateMCQSolutionCode.
  destruct (truthy p) eqn:T.
  - cbn [negb]. rewrite (get_field_truthy _ _ T), F. cbn [bind].
    destruct xs as [|x xs']; [destruct H as [[]|[]]|].
    intros E; apply bind_ok in E as (b & E1 & _). exact (mcq_blocks_null _ _ _ H E1).
  - exfalso. destruct p; try (simpl in T; discriminate T); unfold field in F; simpl in F;
      discriminate F.
Qed.

Lemma mcq_code_null_answer_witness :
  field (parseMCQResponse (u "{" ++ [34%N] ++ u "answers" ++ [34%N] ++ u ":[null]}") (JObj []))
        (u "answers") = JArr [JNull] []
  /\ forall c, mcq_solution_code (u "{" ++ [34%N] ++ u "answers" ++ [34%N] ++ u ":[null]}")
                                 (JObj []) <> Ok c.
Proof.
  split; [vm_compute; reflexivity|].
  apply (mcq_code_null_answer _ [JNull] []); [vm_compute; reflexivity|left; left; reflexivity].
Defined.

(** *** waitForInitialization and getLanguage *)

Lemma wait_loop_ok (poll : nat -> res jv) :
  forall rem a n, wait_loop a rem poll = Ok n ->
  a < n <= a + rem
  /\ (exists v, poll (n - 1) = Ok v /\ truthy v = true)
  /\ forall k, a <= k < n - 1 -> exists v, poll k = Ok v /\ truthy v = false.
Proof.
  induction rem as [|rem IH]; intros a n E; simpl in E; [discriminate|].
  destruct (poll a) as [v| |] eqn:P; simpl in E; try discriminate.
  destruct (truthy v) eqn:T.
  - injection E as <-. split; [lia|split; [exists v; rewrite Nat.sub_1_r; simpl; auto|]].
    intros k Lk; lia.
  - destruct (IH _ _ E) as (L & Hv & Hk). split; [lia|split; [exact Hv|]].
    intros k Lk. destruct (Nat.eq_dec k a) as [->|Ne]; [exists v; auto|apply Hk; lia].
Qed.

Lemma wait_loop_throw (poll : nat -> res jv) :
  forall rem a, (forall k, a <= k < a + rem -> exists v, poll k = Ok v /\ truthy v = false) ->
  wait_loop a rem poll = Throw.
Proof.
  induction rem as [|rem IH]; intros a H; simpl; [reflexivity|].
  destruct (H a) as (v & P & T); [lia|]. rewrite P; simpl; rewrite T.
  apply IH; intros k Lk; apply H; lia.
Qed.

(** waitForInitialization succeeds after the first truthy poll, within 50 polls, with all earlier polls falsy; 50 falsy polls make it throw. *)
Theorem waitForInitialization_polls (poll : nat -> res jv) :
  (forall n, waitForInitialization poll = Ok n ->
     1 <= n <= maxAttempts
     /\ (exists v, poll (n - 1) = Ok v /\ truthy v = true)
     /\ forall k, k < n - 1 -> exists v, poll k = Ok v /\ truthy v = false)
  /\ ((forall k, k < maxAttempts -> exists v, poll k = Ok v /\ truthy v = false) ->
      waitForInitialization poll = Throw).
Proof.
  split.
  - intros n E. destruct (wait_loop_ok poll _ _ _ E) as (L & Hv & Hk).
    split; [unfold maxAttempts in *; lia|split; [exact Hv|]].
    intros k Lk; apply Hk; lia.
  - intros H. apply wait_loop_throw. intros k Lk; apply H; exact (proj2 Lk).
Qed.

Lemma waitForInitialization_polls_witness :
  waitForInitialization (fun k => Ok (JBool (Nat.eqb k 3))) = Ok 4
  /\ waitForInitialization (fun _ => Ok (JBool false)) = Throw.
Proof.
  destruct (waitForInitialization_polls (fun _ => Ok (JBool false))) as [_ H].
  split; [vm_compute; reflexivity|].
  apply H. intros k _; exists (JBool false); split; reflexivity.
Defined.

(** Without a language in the configuration and with a window that never initialises, getLanguage returns python whatever language the window would report. *)
Theorem getLanguage_not_initialized (l : jv) (poll : nat -> res jv) (language : res jv)
    (window : bool) :
  truthy l = false ->
  (forall k, k < maxAttempts -> exists v, poll k = Ok v /\ truthy v = false) ->
  getLanguage (Ok l) window poll language = JStr (u "python").
Proof.
  intros T H. unfold getLanguage. rewrite T.
  destruct window; [|reflexivity].
  rewrite (proj2 (waitForInitialization_polls poll) H). reflexivity.
Qed.

Lemma getLanguage_not_initialized_witness :
  getLanguage (Ok JUndef) true (fun _ => Ok (JBool false)) (Ok (JStr (u "java")))
  = JStr (u "python").
Proof.
  apply getLanguage_not_initialized; [reflexivity|].
  intros k _; exists (JBool false); split; reflexivity.
Defined.

(** *** extractKeyConcepts *)

(** extractKeyConcepts returns an array of non-empty trimmed strings. *)
Theorem extractKeyConcepts_clean (block : jstr) :
  exists ts, extractKeyConcepts block = JArr (map JStr ts) []
             /\ forall t, In t ts -> t <> [] /\ trim t = t.
Proof.
  unfold extractKeyConcepts.
  destruct (rmatch_ re_key_concepts block) as [m|]; [|exists []; split; [reflexivity|contradiction]].
  destruct (cap block m 1) as [g|]; [|exists []; split; [reflexivity|contradiction]].
  destruct (truthy (JStr g)); [|exists []; split; [reflexivity|contradiction]].
  eexists; split; [reflexivity|]. intros t Ht.
  exact (in_filter_trim (fun x => x) _ _ Ht).
Qed.

(** *** parseMCQResponse on text without braces *)

Lemma no_brace_rmatch (c : jstr) : ~ In 123%N c -> rmatch_ re_braces c = None.
Proof.
  intros H; unfold rmatch_, exec_from; apply search_none; intros j _.
  unfold re_braces, ch; cbn [mt ms_pos].
  destruct (nth_error c j) as [x|] eqn:Nx; [|reflexivity].
  destruct (N.eqb 123 x) eqn:E; [|reflexivity].
  apply N.eqb_eq in E; subst x. exfalso; apply H; eapply nth_error_In; eauto.
Qed.

Lemma truthy_index_get (v : jv) (i : nat) : truthy v = true -> exists x, index_get v i = Ok x.
Proof.
  intros T; destruct v; simpl in T |- *; try discriminate; eauto;
    repeat match goal with |- context [match ?e with Some _ => _ | None => _ end] =>
      destruct e; eauto end.
Qed.

Lemma text_answer_ok (pi : jv) (i : nat) (b : jstr) :
  pi <> JUndef -> pi <> JNull ->
  exists a, text_answer pi i b = Ok a /\ field a (u "question_number") = nat_num (S i).
Proof.
  intros H1 H2. unfold text_answer. cbv zeta.
  assert (G : get_field pi (u "questions") = Ok (field pi (u "questions"))).
  { destruct pi; try congruence; unfold field; simpl; try reflexivity;
      destruct (obj_get _ _); reflexivity. }
  rewrite G; cbn [bind].
  destruct (truthy (field pi (u "questions"))) eqn:T.
  - destruct (truthy_index_get _ i T) as (qi & Q). rewrite Q; cbn [bind].
    destruct (truthy qi) eqn:Tq.
    + rewrite !(get_field_truthy _ _ Tq); cbn [bind]. eexists; split; reflexivity.
    + eexists; split; reflexivity.
  - cbn [bind]. rewrite T. eexists; split; reflexivity.
Qed.

Lemma text_answers_ok (pi : jv) :
  pi <> JUndef -> pi <> JNull ->
  forall bs i, exists xs, text_answers pi i bs = Ok xs /\ length xs = length bs
   /\ forall j a, nth_error xs j = Some a -> field a (u "question_number") = nat_num (S (i + j)).
Proof.
  intros H1 H2 bs; induction bs as [|b bs IH]; intros i.
  - exists []; split; [reflexivity|split; [reflexivity|intros [|j] a E; discriminate]].
  - destruct (text_answer_ok pi i b H1 H2) as (a & Ea & Fa).
    destruct (IH (S i)) as (xs & Ex & Lx & Fx).
    exists (a :: xs). simpl; rewrite Ea; cbn [bind]; rewrite Ex; cbn [bind].
    split; [reflexivity|split; [simpl; f_equal; exact Lx|]].
    intros [|j] a' E; simpl in E.
    + injection E as <-. rewrite Nat.add_0_r; exact Fa.
    + rewrite (Fx j a' E). f_equal. f_equal. lia.
Qed.

(** A response with no brace is parsed by the text fallback: with a problemInfo that is neither undefined nor null, parseMCQResponse returns one answer per non-blank question block, numbered from 1 in order. *)
Theorem parseMCQResponse_text_answers (content : jstr) (problemInfo : jv) :
  ~ In 123%N content -> problemInfo <> JUndef -> problemInfo <> JNull ->
  exists xs, parseMCQResponse content problemInfo = answers_obj xs
   /\ length xs = length (filter (fun b => negb (is_nil (trim b))) (rsplit re_qsplit content))
   /\ forall j a, nth_error xs j = Some a -> field a (u "question_number") = nat_num (S j).
Proof.
  intros Hb H1 H2. unfold parseMCQResponse, parseMCQResponse_try.
  rewrite (no_brace_rmatch _ Hb).
  destruct (text_answers_ok _ H1 H2
              (filter (fun b => negb (is_nil (trim b))) (rsplit re_qsplit content)) 0)
    as (xs & E & L & F).
  change (fun b => negb match trim b with [] => true | _ :: _ => false end)
    with (fun b => negb (is_nil (trim b))).
  rewrite E; cbn [bind]. exists xs; split; [reflexivity|split; [exact L|]].
  intros j a Ha; exact (F j a Ha).
Qed.

Lemma parseMCQResponse_text_answers_witness :
  ~ In 123%N (u "Question 1: correct answer is B")
  /\ exists xs, parseMCQResponse (u "Question 1: correct answer is B") (JObj []) = answers_obj xs
     /\ length xs = 1.
Proof.
  assert (Hb : ~ In 123%N (u "Question 1: correct answer is B")).
  { intros H; vm_compute in H; repeat (destruct H as [H|H]; [discriminate H|]); exact H. }
  split; [exact Hb|].
  destruct (parseMCQResponse_text_answers _ (JObj []) Hb ltac:(discriminate) ltac:(discriminate))
    as (xs & E & L & _).
  exists xs; split; [exact E|]. rewrite L; vm_compute; reflexivity.
Defined.

(** *** validateAndFixMCQFormat on a question without options or text *)

(** validateAndFixMCQFormat throws when its first question has falsy options and a question text that is not a string. *)
Theorem validate_throws_without_text (problemInfo : jv) (rawResponse : jstr)
    (o : obj) (qs : list jv) (ps : obj) :
  truthy problemInfo = true ->
  field problemInfo (u "questions") = JArr (JObj o :: qs) ps ->
  truthy (field (JObj o) (u "options")) = false ->
  (forall s, field (JObj o) (u "question_text") <> JStr s) ->
  validateAndFixMCQFormat problemInfo rawResponse = Throw.
Proof.
  intros T F Ho Ht. unfold validateAndFixMCQFormat. rewrite T, (get_field_truthy _ _ T), F.
  cbn [bind fix_questions].
  assert (Q1 : exists o', (if truthy (field (JObj o) (u "question_number")) then Ok (JObj o)
                           else set_field (JObj o) (u "question_number")
                                  (JStr (nat_to_jstr 1))) = Ok (JObj o')
                          /\ field (JObj o') (u "options") = field (JObj o) (u "options")
                          /\ field (JObj o') (u "question_text")
                             = field (JObj o) (u "question_text")).
  { destruct (truthy (field (JObj o) (u "question_number"))).
    - exists o; auto.
    - eexists; split; [reflexivity|]. rewrite !field_set. split; reflexivity. }
  destruct Q1 as (o' & E1 & Fo & Ft).
  unfold fix_question. rewrite get_field_obj; cbn [bind]. rewrite E1; cbn [bind].
  rewrite get_field_obj; cbn [bind]. rewrite Fo, Ho; cbn [bind].
  rewrite get_field_obj; cbn [bind]. rewrite Ft.
  unfold extractOptionsFromText.
  destruct (field (JObj o) (u "question_text")); try reflexivity.
  exfalso; exact (Ht s eq_refl).
Qed.

Lemma validate_throws_without_text_witness :
  validateAndFixMCQFormat (JObj [(u "questions", JArr [JObj []] [])]) [] = Throw.
Proof.
  apply (validate_throws_without_text _ _ [] [] []); try reflexivity.
  intros s; vm_compute; discriminate.
Defined.

(** *** Orchestration *)

Lemma step_calls_aborted (s : state) (i : input) (c : call) :
  provider_of s = Gemini -> is_aborted s (call_run c) = true ->
  In c (calls (step s i)) -> In c (calls s).
Proof.
  destruct c as [r st b]; simpl. intros Hg Ha; destruct i as [| |id o]; simpl.
  - unfold processScreenshots. split_all; exact (fun H => H).
  - unfold cancelOngoingRequests. split_all; exact (fun H => H).
  - destruct (find_run s id) as [[rid p]|]; [|exact (fun H => H)]. simpl.
    unfold_resume. split_all; intros H; try exact H;
    unfold provider_of, is_aborted in *; simpl in *;
    try congruence;
    (apply in_app_or in H as [H|[H|[]]]; [exact H|injection H; intros; subst; congruence]).
Qed.

(** With Gemini, once a run's signal is aborted no request of any stage of that run is issued again, along every sequence of inputs. *)
Theorem gemini_aborted_run_issues_nothing (s : state) (r : nat) :
  provider_of s = Gemini -> is_aborted s r = true ->
  forall tr st b, In (Call r st b) (calls (run_inputs s tr)) -> In (Call r st b) (calls s).
Proof.
  intros Hg Ha tr. unfold run_inputs. revert s Hg Ha.
  induction tr as [|i tr IH]; intros s Hg Ha st b H; simpl in H; [exact H|].
  apply IH in H.
  - exact (step_calls_aborted s i (Call r st b) Hg Ha H).
  - unfold provider_of; rewrite step_cfg; exact Hg.
  - apply is_aborted_step; exact Ha.
Qed.

Lemma gemini_aborted_run_issues_nothing_witness :
  existsb (fun c => Nat.eqb (call_run c) 0)
    (calls (run_inputs (run_inputs (init cfg_gemini_nolang VQueue) [Process; Cancel])
                       [Resume 0 (OShots true); Resume 0 OLang; Process;
                        Resume 0 (ONet NOk); Resume 0 OLang])) = false.
Proof.
  destruct (existsb _ _) eqn:E; [|reflexivity].
  apply existsb_exists in E as ([r st b] & Hin & Hr). simpl in Hr.
  apply Nat.eqb_eq in Hr; subst r.
  apply (gemini_aborted_run_issues_nothing
           (run_inputs (init cfg_gemini_nolang VQueue) [Process; Cancel]) 0) in Hin;
    [|vm_compute; reflexivity|vm_compute; reflexivity].
  vm_compute in Hin. destruct Hin.
Defined.

Lemma settle_primary_fail_events (s : state) (id : nat) (e : jstr) :
  new_events s (settle_primary s id (HFail e))
  = (if includes e (u "API Key") || includes e (u "OpenAI") || includes e (u "Gemini")
     then [API_KEY_INVALID] else [INITIAL_SOLUTION_ERROR e])
  /\ cur_view (settle_primary s id (HFail e)) = VQueue.
Proof.
  unfold settle_primary, new_events.
  destruct (includes e (u "API Key") || includes e (u "OpenAI") || includes e (u "Gemini"));
    simpl; rewrite skipn_length_app; split; reflexivity.
Qed.

(** An OpenAI extraction failure with response status 401, 429 or 500 is reported as API_KEY_INVALID (every such message names OpenAI) and returns to the queue view. *)
Theorem openai_extract_failure_events (s : state) (id : nat) (k : N) (st : option N)
    (m : jstr) :
  provider_of s = OpenAI -> find_run s id = Some (Run id AwaitExtract) ->
  In k [401; 429; 500]%N ->
  new_events s (step s (Resume id (ONet (NFail (Some k) st m)))) = [API_KEY_INVALID]
  /\ cur_view (step s (Resume id (ONet (NFail (Some k) st m)))) = VQueue.
Proof.
  intros Hp F Hk. simpl step. rewrite F. simpl run_pc. unfold resume; simpl admissible.
  cbn [negb]. rewrite Hp.
  destruct (settle_primary_fail_events s id (helper_catch (Some k) m)) as [E V].
  rewrite E, V. split; [|reflexivity].
  destruct Hk as [<-|[<-|[<-|[]]]]; vm_compute; reflexivity.
Qed.

Lemma openai_extract_failure_events_witness :
  new_events (run_inputs (init cfg_openai_nolang VQueue)
                [Process; Resume 0 (OShots true); Resume 0 OLang])
             (step (run_inputs (init cfg_openai_nolang VQueue)
                      [Process; Resume 0 (OShots true); Resume 0 OLang])
                   (Resume 0 (ONet (NFail (Some 500%N) None (u "boom")))))
  = [API_KEY_INVALID].
Proof.
  apply (openai_extract_failure_events _ 0 500%N None (u "boom"));
    [vm_compute; reflexivity|vm_compute; reflexivity|right; right; left; reflexivity].
Defined.

(** An Anthropic extraction failure is reported by its status: 429 as the rate-limit error; 413 or a message containing token as API_KEY_INVALID (the size message names OpenAI and Gemini); any other as the Anthropic extraction error. *)
Theorem anthropic_extract_failure_events (s : state) (id : nat) (rs st : option N)
    (m : jstr) :
  provider_of s = Anthropic -> find_run s id = Some (Run id AwaitExtract) ->
  new_events s (step s (Resume id (ONet (NFail rs st m))))
  = (if opt_eqb st 429 then [INITIAL_SOLUTION_ERROR msg_claude_429]
     else if opt_eqb st 413 || includes m (u "token") then [API_KEY_INVALID]
     else [INITIAL_SOLUTION_ERROR msg_anthropic_extract])
  /\ cur_view (step s (Resume id (ONet (NFail rs st m)))) = VQueue.
Proof.
  intros Hp F. simpl step. rewrite F. simpl run_pc. unfold resume; simpl admissible.
  cbn [negb]. rewrite Hp.
  destruct (settle_primary_fail_events s id (claude_catch st m msg_anthropic_extract))
    as [E V].
  rewrite E, V. split; [|reflexivity]. unfold claude_catch.
  destruct (opt_eqb st 429); [vm_compute; reflexivity|].
  destruct (opt_eqb st 413 || includes m (u "token")); vm_compute; reflexivity.
Qed.

Lemma anthropic_extract_failure_events_witness :
  new_events (run_inputs (init (Config Anthropic true true true true) VQueue)
                [Process; Resume 0 (OShots true)])
             (step (run_inputs (init (Config Anthropic true true true true) VQueue)
                      [Process; Resume 0 (OShots true)])
                   (Resume 0 (ONet (NFail None (Some 413%N) (u "too large")))))
  = [API_KEY_INVALID].
Proof.
  apply (anthropic_extract_failure_events _ 0 None (Some 413%N) (u "too large"));
    vm_compute; reflexivity.
Defined.

